(** * GrokDB: a shallow embedding of [src/index.ts]

    The development follows the TypeScript class [GrokDB]: the
    constructor, the per-column value codec ([processValue],
    [unprocessValue]), the query builder and the operations on rows
    ([insert], [find], [findOne], [update], [delete]), the schema
    registry ([createTable], [alterTable], [dropColumn], [getSchema],
    [setValidator]), [transaction], and the migration runner
    ([createMigration], [migrate]).

    What the class calls into is modelled next to it:
    - [JSON.parse] and [JSON.stringify] (the ECMAScript built-ins) by a
      reference implementation over integers, byte strings, arrays and
      objects;
    - the members a plain object inherits from [Object.prototype], which
      the operator [in] sees;
    - [CryptoJS.AES] by the interface [CryptoJS] (two operations and the
      round-trip law of a symmetric cipher);
    - [better-sqlite3] by the interface [Database] (statement execution
      on an abstract engine state);
    - a [zod] schema by the two predicates the class calls on it;
    - [EventEmitter] by the listeners of an instance, each taken by
      whether it raises;
    - [fs], [path] and the module loader by the calls the class makes on
      them. *)

From Stdlib Require Import String Ascii List ZArith Bool Lia.
From Stdlib Require Import DecimalString DecimalN DecimalFacts.
From stdpp Require Import base option list strings gmap sorting.

Open Scope string_scope.
Set Warnings "-register-all".

(** ** JavaScript values *)

(** The values that flow through the class: column values, rows, event
    payloads.  Numbers are integers and strings are byte strings; an
    object is its list of own properties in insertion order (the place
    JavaScript gives to integer-like keys is not modelled).  A function
    is known by its name: the class meets functions as the members a
    row inherits from [Object.prototype]. *)
Inductive any : Type :=
| VUndefined
| VNull
| VBool (b : bool)
| VNum (n : Z)
| VStr (s : string)
| VArr (l : list any)
| VObj (l : list (string * any))
| VFunction (name : string).

(** [Record<string, any>]: rows, payloads and where-maps. *)
Abbreviation Row := (list (string * any)).

(** Exceptions that can cross the class, by where they are raised: the
    class itself ([Error]), [JSON.parse], the cipher, the validator, the
    engine, the evaluation of a name nothing binds ([ReferenceError])
    and a listener of an event, with the value it throws. *)
Inductive error : Type :=
| Error (message : string)
| SyntaxError
| MalformedUtf8
| ZodError (payload : Row)
| SqliteError (message : string)
| ReferenceError (message : string)
| ListenerError (thrown : any).

(** The outcome of a call: a returned value or a raised exception. *)
Inductive res (A : Type) : Type :=
| Ok (a : A)
| Throw (e : error).
Arguments Ok {A} a.
Arguments Throw {A} e.

(** [typeof v === 'string'] *)
Definition is_string (v : any) : bool :=
  match v with VStr _ => true | _ => false end.

(** [v === null] *)
Definition is_null (v : any) : bool :=
  match v with VNull => true | _ => false end.

(** ** Objects as property lists *)

(** [o[key]] on the own properties of [o]; [None] when [key] is no own
    property. *)
Fixpoint obj_get (key : string) (o : Row) : option any :=
  match o with
  | [] => None
  | (k, v) :: rest => if String.eqb k key then Some v else obj_get key rest
  end.

(** [o[key] = v]: an existing property keeps its place, a new one is
    appended. *)
Fixpoint obj_set (key : string) (v : any) (o : Row) : Row :=
  match o with
  | [] => [(key, v)]
  | (k, x) :: rest =>
      if String.eqb k key then (k, v) :: rest else (k, x) :: obj_set key v rest
  end.

(** The functions every plain object inherits from [Object.prototype],
    by key, each with its [name]. *)
Definition prototype_functions : list (string * string) :=
  [("constructor", "Object");
   ("__defineGetter__", "__defineGetter__");
   ("__defineSetter__", "__defineSetter__");
   ("hasOwnProperty", "hasOwnProperty");
   ("__lookupGetter__", "__lookupGetter__");
   ("__lookupSetter__", "__lookupSetter__");
   ("isPrototypeOf", "isPrototypeOf");
   ("propertyIsEnumerable", "propertyIsEnumerable");
   ("toString", "toString");
   ("valueOf", "valueOf");
   ("toLocaleString", "toLocaleString")].

(** What a plain object (an object literal, a spread copy, a row of the
    engine) inherits under [key]: one of the functions above, or under
    [__proto__] the prototype itself, an object without enumerable
    properties. *)
Definition inherited (key : string) : option any :=
  if String.eqb key "__proto__" then Some (VObj [])
  else
    (fix lookup (members : list (string * string)) : option any :=
       match members with
       | [] => None
       | (k, name) :: rest =>
           if String.eqb k key then Some (VFunction name) else lookup rest
       end) prototype_functions.

(** [key in o ? o[key] : nothing] on a plain object: an own property
    first, an inherited member otherwise. *)
Definition obj_read (key : string) (o : Row) : option any :=
  match obj_get key o with
  | Some v => Some v
  | None => inherited key
  end.

(** [o[key] = v] on a plain object [o] that has [key] ([key in o]): an
    own property is replaced; an inherited function is shadowed by a new
    own property; under an inherited [__proto__] the assignment reaches
    the setter of [Object.prototype], which ignores a value that is no
    object and changes nothing when given the prototype [o] already
    has.  The class assigns nothing else there (lemma
    [proto_assignment] below). *)
Definition obj_assign (key : string) (v : any) (o : Row) : Row :=
  match obj_get key o with
  | Some _ => obj_set key v o
  | None => if String.eqb key "__proto__" then o else obj_set key v o
  end.

(** [Object.keys(o)] and [Object.values(o)] *)
Definition obj_keys (o : Row) : list string := map fst o.
Definition obj_values (o : Row) : list any := map snd o.

(** [xs.join(sep)] *)
Fixpoint join (sep : string) (xs : list string) : string :=
  match xs with
  | [] => ""
  | [x] => x
  | x :: rest => x +:+ sep +:+ join sep rest
  end.

(** [s] with the prefix [p] removed, when it starts with [p]. *)
Fixpoint strip_prefix (p s : string) : option string :=
  match p, s with
  | "", _ => Some s
  | String a p', String b s' => if Ascii.eqb a b then strip_prefix p' s' else None
  | String _ _, "" => None
  end.

(** ** The JSON built-ins *)

Module JSON.

Definition dquote : ascii := "034"%char.
Definition backslash : ascii := "092"%char.

(** *** Numbers *)

Definition is_digit (c : ascii) : bool :=
  let n := nat_of_ascii c in (48 <=? n)%nat && (n <=? 57)%nat.

Definition digits_of_N (n : N) : string :=
  NilEmpty.string_of_uint (N.to_uint n).

(** The decimal text of an integer, as [String(n)] gives it. *)
Definition number_to_string (n : Z) : string :=
  match n with
  | Z0 => "0"
  | Zpos p => digits_of_N (Npos p)
  | Zneg p => String "-" (digits_of_N (Npos p))
  end.

(** The longest prefix of digits, and what follows it. *)
Fixpoint span_digits (s : string) : string * string :=
  match s with
  | String c r =>
      if is_digit c then let '(ds, r') := span_digits r in (String c ds, r')
      else ("", s)
  | "" => ("", "")
  end.

(** A digit sequence denotes a number unless it is empty or has a
    leading zero. *)
Definition N_of_digits (ds : string) : option N :=
  match ds with
  | "" => None
  | String "0" (String _ _) => None
  | _ => N.of_uint <$> NilEmpty.uint_of_string ds
  end.

(** *** Strings *)

Definition hex_digit (n : N) : ascii :=
  ascii_of_N (if (n <? 10)%N then 48 + n else 87 + n).

Definition hex_value (c : ascii) : option N :=
  let n := N_of_ascii c in
  if (48 <=? n)%N && (n <=? 57)%N then Some (n - 48)%N
  else if (97 <=? n)%N && (n <=? 102)%N then Some (n - 87)%N
  else if (65 <=? n)%N && (n <=? 70)%N then Some (n - 55)%N
  else None.

Definition is_control (c : ascii) : bool := (N_of_ascii c <? 32)%N.

(** The text [JSON.stringify] writes for one character of a string. *)
Definition escape_char (c : ascii) : string :=
  if Ascii.eqb c dquote then String backslash (String dquote "")
  else if Ascii.eqb c backslash then String backslash (String backslash "")
  else if Ascii.eqb c "008" then String backslash "b"
  else if Ascii.eqb c "009" then String backslash "t"
  else if Ascii.eqb c "010" then String backslash "n"
  else if Ascii.eqb c "012" then String backslash "f"
  else if Ascii.eqb c "013" then String backslash "r"
  else if is_control c then
    String backslash
      (String "u" (String "0" (String "0"
        (String (hex_digit (N_of_ascii c / 16))
          (String (hex_digit (N_of_ascii c mod 16)) "")))))
  else String c "".

Fixpoint escape (s : string) : string :=
  match s with
  | "" => ""
  | String c r => escape_char c +:+ escape r
  end.

Definition quote (s : string) : string :=
  String dquote (escape s +:+ String dquote "").

(** What a one-letter escape stands for. *)
Definition unescape (e : ascii) : option ascii :=
  if Ascii.eqb e dquote then Some dquote
  else if Ascii.eqb e backslash then Some backslash
  else if Ascii.eqb e "/" then Some "/"%char
  else if Ascii.eqb e "b" then Some "008"%char
  else if Ascii.eqb e "t" then Some "009"%char
  else if Ascii.eqb e "n" then Some "010"%char
  else if Ascii.eqb e "f" then Some "012"%char
  else if Ascii.eqb e "r" then Some "013"%char
  else None.

(** A four-digit code-unit escape; code units above 255 are outside the
    byte strings of the model. *)
Definition unescape_u (h1 h2 h3 h4 : ascii) : option ascii :=
  a ← hex_value h1; b ← hex_value h2; c ← hex_value h3; d ← hex_value h4;
  let n := (((a * 16 + b) * 16 + c) * 16 + d)%N in
  if (n <? 256)%N then Some (ascii_of_N n) else None.

Definition cons_char (c : ascii) (p : string * string) : string * string :=
  (String c p.1, p.2).

(** The characters of a string literal after its opening quote: the
    decoded content and the text after the closing quote. *)
Fixpoint parse_chars (s : string) : option (string * string) :=
  match s with
  | "" => None
  | String c r =>
      if Ascii.eqb c dquote then Some ("", r)
      else if Ascii.eqb c backslash then
        match r with
        | "" => None
        | String e r1 =>
            if Ascii.eqb e "u" then
              match r1 with
              | String h1 (String h2 (String h3 (String h4 r2))) =>
                  match unescape_u h1 h2 h3 h4 with
                  | Some c' => cons_char c' <$> parse_chars r2
                  | None => None
                  end
              | _ => None
              end
            else
              match unescape e with
              | Some c' => cons_char c' <$> parse_chars r1
              | None => None
              end
        end
      else if is_control c then None
      else cons_char c <$> parse_chars r
  end.

(** *** Serialisation *)

(** The text of a value in value position.  An array element that is
    [undefined] or a function is written [null]; such a property is
    left out. *)
Fixpoint serialize (v : any) : string :=
  match v with
  | VUndefined | VFunction _ => "null"
  | VNull => "null"
  | VBool true => "true"
  | VBool false => "false"
  | VNum n => number_to_string n
  | VStr s => quote s
  | VArr l => "[" +:+ join "," (map serialize l) +:+ "]"
  | VObj l =>
      "{" +:+
      join ","
        ((fix members (l : list (string * any)) : list string :=
            match l with
            | [] => []
            | (_, VUndefined) :: rest | (_, VFunction _) :: rest =>
                members rest
            | (k, x) :: rest =>
                (quote k +:+ ":" +:+ serialize x) :: members rest
            end) l)
      +:+ "}"
  end.

(** [JSON.stringify(v)]: a string, or [undefined] ([None]) for
    [undefined] itself and for a function. *)
Definition stringify (v : any) : option string :=
  match v with
  | VUndefined | VFunction _ => None
  | _ => Some (serialize v)
  end.

(** *** Parsing *)

Definition is_ws (c : ascii) : bool :=
  Ascii.eqb c " " || Ascii.eqb c "009" || Ascii.eqb c "010" || Ascii.eqb c "013".

Fixpoint skip_ws (s : string) : string :=
  match s with
  | String c r => if is_ws c then skip_ws r else s
  | "" => ""
  end.

Definition parse_literal (word : string) (v : any) (s : string)
  : option (any * string) :=
  r ← strip_prefix word s; Some (v, r).

(** An unsigned integer literal; a fraction or an exponent is outside
    the integers of the model. *)
Definition parse_unsigned (s : string) : option (N * string) :=
  let '(ds, r) := span_digits s in
  n ← N_of_digits ds;
  match r with
  | String c _ =>
      if Ascii.eqb c "." || Ascii.eqb c "e" || Ascii.eqb c "E" then None
      else Some (n, r)
  | "" => Some (n, r)
  end.

(** Property assignment in source order: a repeated key keeps its
    first position and takes the last value. *)
Definition obj_of_entries (entries : Row) : Row :=
  fold_left (λ o kv, obj_set kv.1 kv.2 o) entries [].

(** What the first character of a value announces. *)
Inductive lead : Type :=
| LNull | LTrue | LFalse | LQuote | LMinus | LDigit | LArr | LObj | LOther.

Definition lead_of (c : ascii) : lead :=
  if Ascii.eqb c "n" then LNull
  else if Ascii.eqb c "t" then LTrue
  else if Ascii.eqb c "f" then LFalse
  else if Ascii.eqb c dquote then LQuote
  else if Ascii.eqb c "-" then LMinus
  else if is_digit c then LDigit
  else if Ascii.eqb c "[" then LArr
  else if Ascii.eqb c "{" then LObj
  else LOther.

Fixpoint parse_value (fuel : nat) (s : string) : option (any * string) :=
  match fuel with
  | O => None
  | S fuel =>
      match skip_ws s with
      | "" => None
      | String c r =>
          match lead_of c with
          | LNull => parse_literal "ull" VNull r
          | LTrue => parse_literal "rue" (VBool true) r
          | LFalse => parse_literal "alse" (VBool false) r
          | LQuote => p ← parse_chars r; Some (VStr p.1, p.2)
          | LMinus => p ← parse_unsigned r; Some (VNum (- Z.of_N p.1), p.2)
          | LDigit =>
              p ← parse_unsigned (String c r); Some (VNum (Z.of_N p.1), p.2)
          | LArr =>
              match strip_prefix "]" (skip_ws r) with
              | Some r' => Some (VArr [], r')
              | None => p ← parse_elements fuel r; Some (VArr p.1, p.2)
              end
          | LObj =>
              match strip_prefix "}" (skip_ws r) with
              | Some r' => Some (VObj [], r')
              | None =>
                  p ← parse_members fuel r; Some (VObj (obj_of_entries p.1), p.2)
              end
          | LOther => None
          end
      end
  end
with parse_elements (fuel : nat) (s : string) : option (list any * string) :=
  match fuel with
  | O => None
  | S fuel =>
      p ← parse_value fuel s;
      match strip_prefix "," (skip_ws p.2) with
      | Some r => q ← parse_elements fuel r; Some (p.1 :: q.1, q.2)
      | None =>
          match strip_prefix "]" (skip_ws p.2) with
          | Some r => Some ([p.1], r)
          | None => None
          end
      end
  end
with parse_members (fuel : nat) (s : string) : option (Row * string) :=
  match fuel with
  | O => None
  | S fuel =>
      r ← strip_prefix (String dquote "") (skip_ws s);
      k ← parse_chars r;
      r1 ← strip_prefix ":" (skip_ws k.2);
      p ← parse_value fuel r1;
      match strip_prefix "," (skip_ws p.2) with
      | Some r2 => q ← parse_members fuel r2; Some ((k.1, p.1) :: q.1, q.2)
      | None =>
          match strip_prefix "}" (skip_ws p.2) with
          | Some r2 => Some ([(k.1, p.1)], r2)
          | None => None
          end
      end
  end.

(** [JSON.parse(text)]: the value, or a [SyntaxError]. *)
Definition parse (text : string) : res any :=
  match parse_value (S (String.length text)) text with
  | Some (v, r) =>
      match skip_ws r with
      | "" => Ok v
      | _ => Throw SyntaxError
      end
  | None => Throw SyntaxError
  end.

(** *** Predicates used to state the round trip *)

Fixpoint all_digits (s : string) : bool :=
  match s with
  | "" => true
  | String c r => is_digit c && all_digits r
  end.

Definition no_digit_head (s : string) : bool :=
  match s with
  | "" => true
  | String c _ => negb (is_digit c)
  end.

(** What may follow a value: the end of the text, or a separator. *)
Definition follows (s : string) : bool :=
  match s with
  | "" => true
  | String c _ => Ascii.eqb c "," || Ascii.eqb c "]" || Ascii.eqb c "}"
  end.

(** The characters a serialised value can start with. *)
Definition opens_value (c : ascii) : bool :=
  match lead_of c with LOther => false | _ => true end.

(** The texts of the properties of an object, as [serialize] joins them. *)
Definition member_texts (l : Row) : list string :=
  (fix members (l : list (string * any)) : list string :=
     match l with
     | [] => []
     | (_, VUndefined) :: rest | (_, VFunction _) :: rest => members rest
     | (k, x) :: rest => (quote k +:+ ":" +:+ serialize x) :: members rest
     end) l.

(** The round trip of one value, with enough fuel and in front of any
    text a value can be followed by. *)
Definition round_trips (v : any) : Prop :=
  ∀ fuel rest,
    (String.length (serialize v) ≤ fuel)%nat → follows rest = true →
    parse_value fuel (serialize v +:+ rest) = Some (v, rest).

End JSON.

(** What [JSON.stringify] writes as it is: neither [undefined] nor a
    function. *)
Definition written (v : any) : Prop :=
  match v with
  | VUndefined | VFunction _ => False
  | _ => True
  end.

(** A value [JSON.stringify] writes and [JSON.parse] reads back: no
    [undefined] or function inside, and no object with a repeated key. *)
Fixpoint serializable (v : any) : bool :=
  match v with
  | VUndefined | VFunction _ => false
  | VNull | VBool _ | VNum _ | VStr _ => true
  | VArr l => forallb serializable l
  | VObj l =>
      bool_decide (NoDup (map fst l)) && forallb (λ kv, serializable kv.2) l
  end.

(** ** Truthiness *)

(** A string is truthy unless it is empty; a number unless it is 0; an
    optional value unless it is [undefined]. *)
Definition truthy_string (s : string) : bool := negb (String.eqb s "").

Definition truthy_number (n : Z) : bool := negb (Z.eqb n 0).

Definition truthy_opt {A} (truthy : A → bool) (o : option A) : bool :=
  match o with
  | Some a => truthy a
  | None => false
  end.

(** ** The collaborators *)

(** [CryptoJS.AES] with a passphrase.  [AES_encrypt m k] is
    [CryptoJS.AES.encrypt(m, k).toString()] (the salt it draws is fixed
    by the instance); [AES_decrypt c k] is
    [CryptoJS.AES.decrypt(c, k).toString(CryptoJS.enc.Utf8)], which
    raises on bytes that are no UTF-8 text. *)
Class CryptoJS : Type := {
  AES_encrypt : string → string → string;
  AES_decrypt : string → string → res string;
  AES_round_trip : ∀ m k, AES_decrypt (AES_encrypt m k) k = Ok m
}.

(** What [Statement.run] returns. *)
Record RunResult : Type := {
  changes : Z;
  lastInsertRowid : Z
}.

(** [better-sqlite3]: a statement is prepared from its text and
    executed with its bound parameters on the engine state [DB]; a
    failure ([inl message]) leaves the state as it was. *)
Class Database : Type := {
  DB : Type;
  db_run : string → list any → DB → string + (RunResult * DB);
  db_all : string → list any → DB → string + list Row;
  db_get : string → list any → DB → string + option Row
}.

(** An engine failure as the exception the caller sees. *)
Definition sqlite {A} (r : string + A) : res A :=
  match r with
  | inl message => Throw (SqliteError message)
  | inr a => Ok a
  end.

(** A [zod] schema, by the two calls the class makes on it:
    [validator.parse(data)] and [validator.partial().parse(data)];
    [false] stands for the [ZodError] they raise. *)
Record ZodSchema : Type := {
  parse : Row → bool;
  partial_parse : Row → bool
}.

(** ** The data model of [index.ts] *)

Inductive ColumnType : Type := TEXT | INTEGER | REAL | BLOB | NULL | DATETIME.

Inductive Action : Type := CASCADE | SET_NULL | RESTRICT.

Record ForeignKey : Type := {
  fk_table : string;
  fk_column : string;
  onDelete : option Action;
  onUpdate : option Action
}.

(** An optional flag that is absent reads as [false]. *)
Record ColumnDefinition : Type := {
  type : ColumnType;
  primary : bool;
  unique : bool;
  default : option any;
  notNull : bool;
  encrypted : bool;
  index : bool;
  json : bool;
  softDelete : bool;
  foreignKey : option ForeignKey
}.

(** [{ [key: string]: ColumnDefinition }], in declaration order. *)
Abbreviation TableSchema := (list (string * ColumnDefinition)).

Inductive Direction : Type := ASC | DESC.

Definition direction_text (d : Direction) : string :=
  match d with ASC => "ASC" | DESC => "DESC" end.

Record QueryOptions : Type := {
  limit : option Z;
  offset : option Z;
  includeDeleted : bool;
  orderBy : option (string * Direction)
}.

(** [options = {}] *)
Definition no_options : QueryOptions :=
  {| limit := None; offset := None; includeDeleted := false; orderBy := None |}.



(** The options with the offset removed. *)
Definition without_offset (options : QueryOptions) : QueryOptions :=
  {| limit := limit options; offset := None;
     includeDeleted := includeDeleted options; orderBy := orderBy options |}.

(** A value the codec of its column gives back as it was: on a column
    with [json] set, a serialisable value that is not a string. *)
Definition storable (config : ColumnDefinition) (v : any) : bool :=
  if json config then serializable v && negb (is_string v) else true.

(** ** Property lists of any content *)

(** [o[key]] on the own properties of an object whose values have the
    type [V] (a schema is one, with column definitions as values). *)
Fixpoint entry_get {V} (key : string) (o : list (string * V)) : option V :=
  match o with
  | [] => None
  | (k, v) :: rest => if String.eqb k key then Some v else entry_get key rest
  end.

(** [o[key] = v] *)
Fixpoint entry_set {V} (key : string) (v : V) (o : list (string * V))
  : list (string * V) :=
  match o with
  | [] => [(key, v)]
  | (k, x) :: rest =>
      if String.eqb k key then (k, v) :: rest
      else (k, x) :: entry_set key v rest
  end.

(** [delete o[key]] *)
Fixpoint entry_delete {V} (key : string) (o : list (string * V))
  : list (string * V) :=
  match o with
  | [] => []
  | (k, x) :: rest =>
      if String.eqb k key then entry_delete key rest
      else (k, x) :: entry_delete key rest
  end.

(** [{ ...a, ...b }] *)
Definition spread {V} (a b : list (string * V)) : list (string * V) :=
  fold_left (λ o entry, entry_set entry.1 entry.2 o) b a.

(** The line feed of a template literal. *)
Definition nl : string := String "010" "".

(** [s.replace(/\D/g, '')] *)
Fixpoint digits_only (s : string) : string :=
  match s with
  | "" => ""
  | String c r => if JSON.is_digit c then String c (digits_only r) else digits_only r
  end.

(** ** String helpers of [migrate] *)

(** [s.endsWith(suffix)] *)
Definition endsWith (s suffix : string) : bool :=
  let n := String.length s in
  let m := String.length suffix in
  (m <=? n)%nat && String.eqb (substring (n - m) m s) suffix.

(** The order of [Array.prototype.sort()] on strings. *)
Definition string_le (a b : string) : Prop := String.leb a b = true.

#[export] Instance string_le_dec (a b : string) : Decision (string_le a b).
Proof. unfold string_le. apply _. Defined.

(** ** The class [GrokDB] *)

Section GrokDB.

Context `{CryptoJS} `{Database}.

(** *** The value codec *)

(** [processValue(value, config)], with [this.encryptionKey]. *)
Definition processValue (encryptionKey : option string)
    (value : any) (config : ColumnDefinition) : res any :=
  if json config && negb (is_null value) then
    match value with
    | VStr s => JSON.parse s
    | _ =>
        Ok (match JSON.stringify value with
            | Some s => VStr s
            | None => VUndefined
            end)
    end
  else if encrypted config && is_string value then
    match value, encryptionKey with
    | VStr s, Some key =>
        if truthy_string key then Ok (VStr (AES_encrypt s key)) else Ok value
    | _, _ => Ok value
    end
  else Ok value.

(** [unprocessValue(value, config)], with [this.encryptionKey]; the
    [try]/[catch] around the decryption turns its exception into the
    value as it was stored. *)
Definition unprocessValue (encryptionKey : option string)
    (value : any) (config : ColumnDefinition) : res any :=
  if json config && negb (is_null value) then
    match value with
    | VStr s => JSON.parse s
    | _ => Ok value
    end
  else if encrypted config && is_string value
          && truthy_opt truthy_string encryptionKey then
    match value, encryptionKey with
    | VStr s, Some key =>
        match AES_decrypt s key with
        | Ok text => Ok (VStr text)
        | Throw _ => Ok value
        end
    | _, _ => Ok value
    end
  else Ok value.

(** The loop [Object.entries(schema).forEach(...)] of [insert], [update]
    and [find], on the spread copy of the row: for every schema column
    with [key in row], own or inherited, [row[key]] is read, coded and
    assigned back, in schema order; the first exception ends it. *)
Fixpoint code_row (code : any → ColumnDefinition → res any)
    (schema : TableSchema) (row : Row) : res Row :=
  match schema with
  | [] => Ok row
  | (key, config) :: rest =>
      match obj_read key row with
      | Some v =>
          match code v config with
          | Ok v' => code_row code rest (obj_assign key v' row)
          | Throw e => Throw e
          end
      | None => code_row code rest row
      end
  end.

(** A schema none of whose columns is named like a member of
    [Object.prototype]. *)
Definition plain_columns (schema : TableSchema) : bool :=
  forallb (λ entry, negb (bool_decide (is_Some (inherited entry.1)))) schema.

(** *** The state of an instance *)

(** The private fields of the class and what it inherits from
    [EventEmitter]: the listeners registered on the instance, and the
    events [emit] has been called with, in order.  The listeners are
    taken by what a call of [emit] sees of them: [listeners topic
    payload] is the value the first listener of the topic to raise on
    the payload throws, or [None] when they all return.  What a
    listener does on its own account (calling back into the instance)
    is not modelled. *)
Record GrokDB : Type := {
  db : DB;
  tables : gmap string TableSchema;
  validators : gmap string ZodSchema;
  encryptionKey : option string;
  migrationPath : string;
  listeners : string → any → option any;
  emitted : list (string * any)
}.

Definition with_db (d : DB) (w : GrokDB) : GrokDB :=
  {| db := d; tables := tables w; validators := validators w;
     encryptionKey := encryptionKey w; migrationPath := migrationPath w;
     listeners := listeners w; emitted := emitted w |}.

(** A method: it returns or raises, and leaves a state. *)
Definition M (A : Type) : Type := GrokDB → res A * GrokDB.

Definition ret {A} (a : A) : M A := λ w, (Ok a, w).

Definition throw {A} (e : error) : M A := λ w, (Throw e, w).

Definition bind {A B} (m : M A) (k : A → M B) : M B :=
  λ w, match m w with
       | (Ok a, w') => k a w'
       | (Throw e, w') => (Throw e, w')
       end.

Notation "'do' x <- m ; k" := (bind m (λ x, k))
  (at level 10, x name, m at level 100, k at level 200).

(** A pure computation that may raise. *)
Definition lift {A} (r : res A) : M A := λ w, (r, w).

(** [this.tables.get(table)], or the error every method raises for an
    unknown table. *)
Definition get_table (table : string) : M TableSchema :=
  λ w, match tables w !! table with
       | Some schema => (Ok schema, w)
       | None => (Throw (Error ("Table " +:+ table +:+ " does not exist")), w)
       end.

(** [this.db.prepare(sql).run(params)] *)
Definition run (sql : string) (params : list any) : M RunResult :=
  λ w, match db_run sql params (db w) with
       | inr (result, d) => (Ok result, with_db d w)
       | inl message => (Throw (SqliteError message), w)
       end.

(** [this.db.prepare(sql).all(params)] *)
Definition all (sql : string) (params : list any) : M (list Row) :=
  λ w, (sqlite (db_all sql params (db w)), w).

(** [this.db.prepare(sql).get(params)] *)
Definition get (sql : string) (params : list any) : M (option Row) :=
  λ w, (sqlite (db_get sql params (db w)), w).

(** [this.emit(topic, payload)]: the listeners of the topic are called
    one after the other, and an exception of one of them is the
    exception of [emit]. *)
Definition emit (topic : string) (payload : any) : M unit :=
  λ w,
    let published :=
      {| db := db w; tables := tables w; validators := validators w;
         encryptionKey := encryptionKey w; migrationPath := migrationPath w;
         listeners := listeners w;
         emitted := (emitted w ++ [(topic, payload)])%list |} in
    match listeners w topic payload with
    | Some thrown => (Throw (ListenerError thrown), published)
    | None => (Ok tt, published)
    end.

(** [on(topic, listener)], inherited from [EventEmitter]: the listener
    is called after the listeners registered before it. *)
Definition on (topic : string) (listener : any → option any) : M unit :=
  λ w, (Ok tt,
        {| db := db w; tables := tables w; validators := validators w;
           encryptionKey := encryptionKey w; migrationPath := migrationPath w;
           listeners := λ t payload,
             match listeners w t payload with
             | Some thrown => Some thrown
             | None => if String.eqb t topic then listener payload else None
             end;
           emitted := emitted w |}).

(** [setValidator(table, schema)] *)
Definition setValidator (table : string) (schema : ZodSchema) : M unit :=
  λ w, (Ok tt,
        {| db := db w; tables := tables w;
           validators := <[table := schema]> (validators w);
           encryptionKey := encryptionKey w; migrationPath := migrationPath w;
           listeners := listeners w; emitted := emitted w |}).

(** The validation step of [insert] ([full]) and [update] (partial):
    nothing when the table has no validator. *)
Definition validate (full : bool) (table : string) (data : Row) : M unit :=
  λ w, match validators w !! table with
       | Some validator =>
           if (if full then parse validator data
               else partial_parse validator data)
           then (Ok tt, w)
           else (Throw (ZodError data), w)
       | None => (Ok tt, w)
       end.

(** The encoding loop of [insert] and [update]. *)
Definition process_row (schema : TableSchema) (data : Row) : M Row :=
  λ w, (code_row (processValue (encryptionKey w)) schema data, w).

(** The decoding of the rows [find] returns. *)
Fixpoint unprocess_rows (key : option string) (schema : TableSchema)
    (rows : list Row) : res (list Row) :=
  match rows with
  | [] => Ok []
  | row :: rest =>
      match code_row (unprocessValue key) schema row with
      | Ok row' =>
          match unprocess_rows key schema rest with
          | Ok rest' => Ok (row' :: rest')
          | Throw e => Throw e
          end
      | Throw e => Throw e
      end
  end.

(** *** Writing and reading rows *)

(** [insert(table, data)] *)
Definition insert (table : string) (data : Row) : M RunResult :=
  do schema <- get_table table;
  do _ <- validate true table data;
  do processedData <- process_row schema data;
  let columns := join ", " (obj_keys processedData) in
  let values := obj_values processedData in
  let placeholders := join ", " (map (λ _, "?") values) in
  do result <-
    run ("INSERT INTO " +:+ table +:+ " (" +:+ columns +:+ ") VALUES ("
         +:+ placeholders +:+ ")") values;
  do _ <- emit (table +:+ ":insert")
            (VObj (obj_set "id" (VNum (lastInsertRowid result)) data));
  ret result.

(** The text and the bound values of the query [find] prepares. *)
Definition find_query (table : string) (schema : TableSchema)
    (where_ : Row) (options : QueryOptions) : string * list any :=
  let hasSoftDelete := existsb (λ entry, softDelete entry.2) schema in
  let conditions :=
    ((if hasSoftDelete && negb (includeDeleted options)
      then ["deleted_at IS NULL"] else [])
     ++ map (λ entry, entry.1 +:+ " = ?") where_)%list in
  let values := obj_values where_ in
  let query :=
    match conditions with
    | [] => "SELECT * FROM " +:+ table
    | _ => "SELECT * FROM " +:+ table +:+ " WHERE " +:+ join " AND " conditions
    end in
  let query :=
    match orderBy options with
    | Some (column, direction) =>
        query +:+ " ORDER BY " +:+ column +:+ " " +:+ direction_text direction
    | None => query
    end in
  let query :=
    match limit options with
    | Some n =>
        if truthy_number n then
          let query := query +:+ " LIMIT " +:+ JSON.number_to_string n in
          match offset options with
          | Some o =>
              if truthy_number o
              then query +:+ " OFFSET " +:+ JSON.number_to_string o
              else query
          | None => query
          end
        else query
    | None => query
    end in
  (query, values).

(** [find(table, where, options)] *)
Definition find (table : string) (where_ : Row) (options : QueryOptions)
  : M (list Row) :=
  do schema <- get_table table;
  let '(query, values) := find_query table schema where_ options in
  do results <- all query values;
  λ w, (unprocess_rows (encryptionKey w) schema results, w).

(** [findOne(table, where, options)]: [None] is [null]. *)
Definition findOne (table : string) (where_ : Row) (options : QueryOptions)
  : M (option Row) :=
  do results <-
    find table where_
      {| limit := Some 1%Z; offset := offset options;
         includeDeleted := includeDeleted options; orderBy := orderBy options |};
  ret (head results).

(** [update(table, data, where)] *)
Definition update (table : string) (data : Row) (where_ : Row) : M RunResult :=
  do schema <- get_table table;
  do _ <- validate false table data;
  do processedData <- process_row schema data;
  let setClause :=
    join ", " (map (λ key, key +:+ " = ?") (obj_keys processedData)) in
  let whereClause :=
    join " AND " (map (λ key, key +:+ " = ?") (obj_keys where_)) in
  do result <-
    run ("UPDATE " +:+ table +:+ " SET " +:+ setClause +:+ " WHERE "
         +:+ whereClause)
        (obj_values processedData ++ obj_values where_)%list;
  do _ <- emit (table +:+ ":update")
            (VObj [("where", VObj where_); ("data", VObj data)]);
  ret result.

(** [Object.entries(schema).find(([_, config]) => config.softDelete)?.[0]] *)
Definition softDeleteColumn (schema : TableSchema) : option string :=
  fst <$> List.find (λ entry, softDelete entry.2) schema.

(** The statements of [delete] after the soft-delete check: the row is
    removed and [<table>:delete] is published. *)
Definition physical_delete (table : string) (where_ : Row) : M RunResult :=
  let conditions := join " AND " (map (λ entry, entry.1 +:+ " = ?") where_) in
  do result <-
    run ("DELETE FROM " +:+ table +:+ " WHERE " +:+ conditions)
        (obj_values where_);
  do _ <- emit (table +:+ ":delete") (VObj where_);
  ret result.

(** [delete(table, where)]; [now] is [new Date().toISOString()] at the
    time of the call.  [if (softDeleteColumn)] tests a string or
    [undefined]. *)
Definition delete (now : string) (table : string) (where_ : Row)
  : M RunResult :=
  do schema <- get_table table;
  match softDeleteColumn schema with
  | Some column =>
      if truthy_string column then update table [(column, VStr now)] where_
      else physical_delete table where_
  | None => physical_delete table where_
  end.

(** *** Migrations *)

(** A migration module: [{ up: (db) => void, down: (db) => void }]. *)
Record Migration : Type := {
  up : M unit;
  down : M unit
}.

(** What [migrate] takes from outside the class: [existsSync], which
    line 6 imports from [fs]; [join], which line 2 imports from [path];
    and the module loader behind [require], which raises where the
    module system binds no such name or finds no module. *)
Record Loader : Type := {
  existsSync : string → bool;
  path_join : string → string → string;
  require : string → res Migration
}.

Inductive MigrateDirection : Type := Up | Down.

(** [readdirSync(path)]: line 128 calls it, but line 6 imports
    [readFileSync], [writeFileSync], [existsSync] and [mkdirSync] from
    [fs] and no more, and nothing else in the module declares the name:
    evaluating it raises. *)
Definition readdirSync (path : string) : res (list string) :=
  Throw (ReferenceError "readdirSync is not defined").

(** The [files] of [migrate]: the [.ts] and [.js] entries of the
    migrations directory, sorted, when the directory exists. *)
Definition migration_files (fs : Loader) (path : string)
  : res (list string) :=
  if existsSync fs path then
    match readdirSync path with
    | Ok entries =>
        Ok (merge_sort string_le
              (List.filter (λ f, endsWith f ".ts" || endsWith f ".js")
                 entries))
    | Throw e => Throw e
    end
  else Ok [].

Definition CREATE_MIGRATIONS : string :=
"
      CREATE TABLE IF NOT EXISTS migrations (
        id INTEGER PRIMARY KEY,
        name TEXT NOT NULL,
        executed_at DATETIME DEFAULT CURRENT_TIMESTAMP
      )
    ".

Definition SELECT_MIGRATION : string := "SELECT * FROM migrations WHERE name = ?".

Definition INSERT_MIGRATION : string := "INSERT INTO migrations (name) VALUES (?)".

Definition DELETE_MIGRATION : string := "DELETE FROM migrations WHERE name = ?".

(** The body of the loop [for (const file of files)]. *)
Definition migrate_file (fs : Loader) (direction : MigrateDirection)
    (file : string) : M unit :=
  λ w,
    match require fs (path_join fs (migrationPath w) file) with
    | Throw e => (Throw e, w)
    | Ok migration =>
        (do executed <- get SELECT_MIGRATION [VStr file];
         match direction, executed with
         | Up, None =>
             do _ <- up migration;
             do _ <- run INSERT_MIGRATION [VStr file];
             ret tt
         | Down, Some _ =>
             do _ <- down migration;
             do _ <- run DELETE_MIGRATION [VStr file];
             ret tt
         | _, _ => ret tt
         end) w
    end.

Fixpoint migrate_files (fs : Loader) (direction : MigrateDirection)
    (files : list string) : M unit :=
  match files with
  | [] => ret tt
  | file :: rest =>
      do _ <- migrate_file fs direction file;
      migrate_files fs direction rest
  end.

(** [migrate(direction)] *)
Definition migrate (fs : Loader) (direction : MigrateDirection) : M unit :=
  do _ <- run CREATE_MIGRATIONS [];
  λ w,
    match migration_files fs (migrationPath w) with
    | Ok files => migrate_files fs direction files w
    | Throw e => (Throw e, w)
    end.

(** What a method other than [createTable], [alterTable], [dropColumn]
    and [setValidator] never changes: the registry, the validators, the
    key and the migrations path. *)
Definition keeps_settings (w w' : GrokDB) : Prop :=
  tables w' = tables w ∧ validators w' = validators w
  ∧ encryptionKey w' = encryptionKey w ∧ migrationPath w' = migrationPath w.

(** A listener's exception comes after the statement: [w'] is [w]
    after one statement of the engine has run and one event has been
    published, to a listener that throws [thrown]. *)
Definition raised_by_listener (w w' : GrokDB) (thrown : any) : Prop :=
  ∃ sql values result topic payload,
    db_run sql values (db w) = inr (result, db w')
    ∧ listeners w topic payload = Some thrown
    ∧ emitted w' = (emitted w ++ [(topic, payload)])%list
    ∧ keeps_settings w w'.

(** The two ways a method that runs one statement and publishes one
    event can raise: before it has done anything, with an exception
    that is no listener's, or by a listener of its event, after the
    statement. *)
Definition raises_before_or_in_listener {A} (m : M A) (w : GrokDB) : Prop :=
  ∀ e,
    (m w).1 = Throw e →
    ((m w).2 = w ∧ ∀ thrown, e ≠ ListenerError thrown)
    ∨ ∃ thrown, e = ListenerError thrown ∧ raised_by_listener w (m w).2 thrown.

(** *** Schema changes *)

Definition type_text (t : ColumnType) : string :=
  match t with
  | TEXT => "TEXT" | INTEGER => "INTEGER" | REAL => "REAL"
  | BLOB => "BLOB" | NULL => "NULL" | DATETIME => "DATETIME"
  end.

Definition action_text (a : Action) : string :=
  match a with
  | CASCADE => "CASCADE" | SET_NULL => "SET NULL" | RESTRICT => "RESTRICT"
  end.

(** [` DEFAULT ${JSON.stringify(config.default)}`] when the default is
    not [undefined]. *)
Definition default_clause (config : ColumnDefinition) : string :=
  match default config with
  | Some v =>
      match JSON.stringify v with
      | Some text => " DEFAULT " +:+ text
      | None => ""
      end
  | None => ""
  end.

(** The [def] of one column in [createTable]. *)
Definition column_def (key : string) (config : ColumnDefinition) : string :=
  key +:+ " " +:+ type_text (type config)
  +:+ (if primary config then " PRIMARY KEY" else "")
  +:+ (if unique config then " UNIQUE" else "")
  +:+ (if notNull config then " NOT NULL" else "")
  +:+ default_clause config.

(** The clause [createTable] pushes for a column with a foreign key. *)
Definition foreign_key_clause (key : string) (fk : ForeignKey) : string :=
  "FOREIGN KEY (" +:+ key +:+ ") REFERENCES " +:+ fk_table fk +:+ "("
  +:+ fk_column fk +:+ ")"
  +:+ match onDelete fk with
      | Some a => " ON DELETE " +:+ action_text a
      | None => ""
      end
  +:+ match onUpdate fk with
      | Some a => " ON UPDATE " +:+ action_text a
      | None => ""
      end.

(** The statement that indexes one column. *)
Definition index_statement (table key : string) : string :=
  "CREATE INDEX IF NOT EXISTS idx_" +:+ table +:+ "_" +:+ key +:+ " ON "
  +:+ table +:+ "(" +:+ key +:+ ")".

(** The three arrays the loop of [createTable] fills. *)
Definition column_defs (schema : TableSchema) : list string :=
  map (λ entry, column_def entry.1 entry.2) schema.

Fixpoint foreign_keys (schema : TableSchema) : list string :=
  match schema with
  | [] => []
  | (key, config) :: rest =>
      match foreignKey config with
      | Some fk => foreign_key_clause key fk :: foreign_keys rest
      | None => foreign_keys rest
      end
  end.

Fixpoint index_statements (table : string) (schema : TableSchema)
  : list string :=
  match schema with
  | [] => []
  | (key, config) :: rest =>
      if index config then index_statement table key :: index_statements table rest
      else index_statements table rest
  end.

(** [createTableSQL] *)
Definition createTableSQL (name : string) (schema : TableSchema) : string :=
  nl +:+ "      CREATE TABLE IF NOT EXISTS " +:+ name +:+ " (" +:+ nl
  +:+ "        "
  +:+ join ("," +:+ nl) (column_defs schema ++ foreign_keys schema)%list
  +:+ nl +:+ "      )" +:+ nl +:+ "    ".

(** [statements.forEach(sql => this.db.prepare(sql).run())] *)
Fixpoint run_each (statements : list string) : M unit :=
  match statements with
  | [] => ret tt
  | sql :: rest => do _ <- run sql []; run_each rest
  end.

(** [this.tables.set(name, schema)] *)
Definition set_table (name : string) (schema : TableSchema) : M unit :=
  λ w, (Ok tt,
        {| db := db w; tables := <[name := schema]> (tables w);
           validators := validators w; encryptionKey := encryptionKey w;
           migrationPath := migrationPath w; listeners := listeners w;
           emitted := emitted w |}).

(** [createTable(name, schema)] *)
Definition createTable (name : string) (schema : TableSchema) : M unit :=
  do _ <- run (createTableSQL name schema) [];
  do _ <- run_each (index_statements name schema);
  set_table name schema.

(** [getSchema(table)]: [None] is [undefined]. *)
Definition getSchema (table : string) : M (option TableSchema) :=
  λ w, (Ok (tables w !! table), w).

(** [query(sql, params)] *)
Definition query (sql : string) (params : list any) : M (list Row) :=
  all sql params.

(** The statement [alterTable] runs to add one column. *)
Definition add_column_statement (table columnName : string)
    (config : ColumnDefinition) : string :=
  "ALTER TABLE " +:+ table +:+ " ADD COLUMN " +:+ columnName +:+ " "
  +:+ type_text (type config)
  +:+ (if notNull config then " NOT NULL" else "")
  +:+ default_clause config.

(** The loop of [alterTable]: each column is added, then indexed when
    its definition asks for it. *)
Fixpoint add_columns (table : string) (newColumns : TableSchema) : M unit :=
  match newColumns with
  | [] => ret tt
  | (columnName, config) :: rest =>
      do _ <- run (add_column_statement table columnName config) [];
      do _ <- (if index config then
                 do _ <- run (index_statement table columnName) []; ret tt
               else ret tt);
      add_columns table rest
  end.

(** What the statements of [alterTable] read of a column definition:
    its type, [notNull], [default] and [index]. *)
Definition as_added (config : ColumnDefinition) : ColumnDefinition :=
  {| type := type config; primary := false; unique := false;
     default := default config; notNull := notNull config;
     encrypted := false; index := index config; json := false;
     softDelete := false; foreignKey := None |}.

(** [alterTable(table, newColumns)] *)
Definition alterTable (table : string) (newColumns : TableSchema) : M unit :=
  do schema <- get_table table;
  do _ <- add_columns table newColumns;
  set_table table (spread schema newColumns).

(** [dropColumn(table, column)] *)
Definition dropColumn (table column : string) : M unit :=
  do schema <- get_table table;
  let newSchema := entry_delete column schema in
  let tempTable := table +:+ "_temp" in
  do _ <- createTable tempTable newSchema;
  let columns := join ", " (map fst newSchema) in
  do _ <- run ("INSERT INTO " +:+ tempTable +:+ " SELECT " +:+ columns
               +:+ " FROM " +:+ table) [];
  do _ <- run ("DROP TABLE " +:+ table) [];
  do _ <- run ("ALTER TABLE " +:+ tempTable +:+ " RENAME TO " +:+ table) [];
  set_table table newSchema.

(** *** Transactions *)

(** The handle [transaction()] returns. *)
Record Transaction : Type := {
  commit : M unit;
  rollback : M unit
}.

(** [transaction()]; an event published without a payload carries
    [undefined]. *)
Definition transaction : M Transaction :=
  do _ <- run "BEGIN" [];
  ret {| commit :=
           do _ <- run "COMMIT" []; emit "transaction:commit" VUndefined;
         rollback :=
           do _ <- run "ROLLBACK" []; emit "transaction:rollback" VUndefined |}.

(** *** Creating a migration file *)

(** The files of the disk, by path. *)
Definition Files : Type := list (string * string).

(** The text [createMigration] writes. *)
Definition migration_template : string :=
  nl +:+ "import { GrokDB } from '../src/index';" +:+ nl +:+ nl
  +:+ "export default {" +:+ nl
  +:+ "  up: (db: GrokDB) => {" +:+ nl
  +:+ "    // Add your migration code here" +:+ nl
  +:+ "  }," +:+ nl
  +:+ "  down: (db: GrokDB) => {" +:+ nl
  +:+ "    // Add your rollback code here" +:+ nl
  +:+ "  }" +:+ nl
  +:+ "};" +:+ nl.

(** [`${timestamp}_${name}.ts`], from [new Date().toISOString()]. *)
Definition migration_filename (now name : string) : string :=
  digits_only now +:+ "_" +:+ name +:+ ".ts".

(** [createMigration(name)], at the time [now], on the files [disk]:
    the path it returns and the files it leaves.  [join] is
    [path.join], which normalises the path it builds. *)
Definition createMigration (join : string → string → string)
    (now name : string) (w : GrokDB) (disk : Files) : string * Files :=
  let path := join (migrationPath w) (migration_filename now name) in
  (path, entry_set path migration_template disk).

End GrokDB.

(** ** The migrations table *)

(** What the first statement of [migrate] does on the engine:
    [ledger d] is the [name] column of the table [migrations] in [id]
    order, or [None] while the table does not exist; [CREATE TABLE IF
    NOT EXISTS] makes the table when it is missing and keeps its rows
    when it is there. *)
Class MigrationsTable `{Database} : Type := {
  ledger : DB → option (list string);
  create_migrations : ∀ d,
    ∃ r d', db_run CREATE_MIGRATIONS [] d = inr (r, d')
            ∧ ledger d' = Some (from_option id [] (ledger d))
}.

(** ** Opening a database *)

(** The options of the constructor; [None] is a field left out. *)
Record Options : Type := {
  o_encryptionKey : option string;
  o_timeout : option Z;
  o_readonly : option bool;
  o_fileMustExist : option bool;
  o_migrationPath : option string
}.

(** What the constructor asks of the driver and of the process:
    [join(process.cwd(), path)], [new Database(file, { timeout,
    readonly, fileMustExist })] and [db.pragma(text)]. *)
Class Driver `{Database} : Type := {
  in_cwd : string → string;
  db_open : string → Z → bool → bool → string + DB;
  db_pragma : string → DB → string + DB
}.

(** What it asks of [fs]: [existsSync], and
    [mkdirSync(path, { recursive: true })] by whether it raises
    ([Some message]).  What that call makes on the disk, the directory
    and every parent it lacks, is the file system's and is not
    modelled. *)
Record Directories : Type := {
  dir_exists : string → bool;
  mkdirSync : string → option string
}.

(** [a || b] on numbers, booleans and strings that may be left out. *)
Definition or_else {A} (truthy : A → bool) (a : option A) (b : A) : A :=
  match a with
  | Some x => if truthy x then x else b
  | None => b
  end.

(** [new GrokDB(path, options)]: the instance, or the error of the
    driver or of [fs]. *)
Definition constructor `{Driver} (dirs : Directories) (path : string)
    (options : Options) : res GrokDB :=
  match db_open (in_cwd path)
          (or_else truthy_number (o_timeout options) 5000%Z)
          (or_else id (o_readonly options) false)
          (or_else id (o_fileMustExist options) false) with
  | inl message => Throw (SqliteError message)
  | inr opened =>
      let migrationPath :=
        or_else truthy_string (o_migrationPath options) "./migrations" in
      match db_pragma "foreign_keys = ON" opened with
      | inl message => Throw (SqliteError message)
      | inr keyed =>
          match db_pragma "journal_mode = WAL" keyed with
          | inl message => Throw (SqliteError message)
          | inr ready =>
              let this :=
                {| db := ready; tables := ∅; validators := ∅;
                   encryptionKey := o_encryptionKey options;
                   migrationPath := migrationPath;
                   listeners := λ _ _, None; emitted := [] |} in
              if dir_exists dirs migrationPath then Ok this
              else
                match mkdirSync dirs migrationPath with
                | Some message => Throw (Error message)
                | None => Ok this
                end
          end
      end
  end.

(** ** Reference collaborators *)

(** Small instances of the interfaces, for evaluating the class on
    concrete inputs. *)
Module Reference.

(** A cipher that keeps the message readable: the passphrase in front
    of it. *)
Definition seal (key : string) : string := "sealed(" +:+ key +:+ "):".

Definition encrypt (message key : string) : string := seal key +:+ message.

Definition decrypt (text key : string) : res string :=
  match strip_prefix (seal key) text with
  | Some message => Ok message
  | None => Throw MalformedUtf8
  end.

(** An engine in memory: it keeps the migrations table, journals every
    other statement it runs, and answers every other query with the rows
    it was loaded with. *)
Record MemDB : Type := {
  mem_ledger : option (list string);
  mem_rows : list Row;
  mem_journal : list (string * list any)
}.

Definition set_ledger (l : list string) (d : MemDB) : MemDB :=
  {| mem_ledger := Some l; mem_rows := mem_rows d; mem_journal := mem_journal d |}.

Definition done_ : RunResult := {| changes := 0; lastInsertRowid := 0 |}.

Definition mem_run (sql : string) (params : list any) (d : MemDB)
  : string + (RunResult * MemDB) :=
  if String.eqb sql CREATE_MIGRATIONS then
    inr (done_, set_ledger (from_option id [] (mem_ledger d)) d)
  else if String.eqb sql INSERT_MIGRATION then
    match params, mem_ledger d with
    | [VStr file], Some l => inr (done_, set_ledger (l ++ [file]) d)
    | _, _ => inl "no such table: migrations"
    end
  else if String.eqb sql DELETE_MIGRATION then
    match params, mem_ledger d with
    | [VStr file], Some l =>
        inr (done_, set_ledger (filter (λ name, name ≠ file) l) d)
    | _, _ => inl "no such table: migrations"
    end
  else
    inr ({| changes := 1;
            lastInsertRowid := Z.of_nat (S (length (mem_journal d))) |},
         {| mem_ledger := mem_ledger d; mem_rows := mem_rows d;
            mem_journal := (mem_journal d ++ [(sql, params)])%list |}).

Definition mem_all (sql : string) (params : list any) (d : MemDB)
  : string + list Row :=
  inr (mem_rows d).

Definition mem_get (sql : string) (params : list any) (d : MemDB)
  : string + option Row :=
  if String.eqb sql SELECT_MIGRATION then
    match params, mem_ledger d with
    | [VStr file], Some l =>
        inr (if bool_decide (file ∈ l) then Some [("name", VStr file)] else None)
    | _, _ => inl "no such table: migrations"
    end
  else inr (head (mem_rows d)).

#[export] Instance database : Database :=
  {| DB := MemDB; db_run := mem_run; db_all := mem_all; db_get := mem_get |}.

Definition empty_db : MemDB :=
  {| mem_ledger := None; mem_rows := []; mem_journal := [] |}.

(** A driver that opens the empty engine, unless the file must exist. *)
#[export] Instance driver : @Driver database :=
  @Build_Driver database
    (λ path, "/srv/" +:+ path)
    (λ file timeout readonly fileMustExist,
       if fileMustExist then inl "unable to open database file"
       else inr empty_db)
    (λ text d, inr d).

(** A disk with no directory, on which any can be made. *)
Definition bare : Directories :=
  {| dir_exists := λ _, false; mkdirSync := λ _, None |}.

End Reference.

(** ** Example data *)

Module Examples.

(** A column with no flag set. *)
Definition column (t : ColumnType) : ColumnDefinition :=
  {| type := t; primary := false; unique := false; default := None;
     notNull := false; encrypted := false; index := false; json := false;
     softDelete := false; foreignKey := None |}.

(** [{ type: 'TEXT', json: true }] *)
Definition json_column : ColumnDefinition :=
  {| type := TEXT; primary := false; unique := false; default := None;
     notNull := false; encrypted := false; index := false; json := true;
     softDelete := false; foreignKey := None |}.

(** [{ type: 'TEXT', encrypted: true }] *)
Definition encrypted_column : ColumnDefinition :=
  {| type := TEXT; primary := false; unique := false; default := None;
     notNull := false; encrypted := true; index := false; json := false;
     softDelete := false; foreignKey := None |}.

(** [{ type: 'TEXT', json: true, encrypted: true }] *)
Definition secret_json_column : ColumnDefinition :=
  {| type := TEXT; primary := false; unique := false; default := None;
     notNull := false; encrypted := true; index := false; json := true;
     softDelete := false; foreignKey := None |}.

(** [{ type: 'DATETIME', softDelete: true }] *)
Definition soft_delete_column : ColumnDefinition :=
  {| type := DATETIME; primary := false; unique := false; default := None;
     notNull := false; encrypted := false; index := false; json := false;
     softDelete := true; foreignKey := None |}.

(** [{ type: 'INTEGER', primary: true }] *)
Definition id_column : ColumnDefinition :=
  {| type := INTEGER; primary := true; unique := false; default := None;
     notNull := false; encrypted := false; index := false; json := false;
     softDelete := false; foreignKey := None |}.

(** The text [s] between double quotes. *)
Definition quoted (s : string) : string :=
  String JSON.dquote (s +:+ String JSON.dquote "").

(** [{ theme: 'dark' }] and its JSON text. *)
Definition settings : any := VObj [("theme", VStr "dark")].

Definition settings_text : string :=
  "{" +:+ quoted "theme" +:+ ":" +:+ quoted "dark" +:+ "}".

(** A nested object. *)
Definition preferences : any :=
  VObj [("theme", VStr "dark"); ("notifications", VBool true);
        ("preferences",
         VObj [("language", VStr "en"); ("sizes", VArr [VNum 1; VNum (-2); VNull])])].

(** The table [users] of the test suite. *)
Definition users : TableSchema :=
  [("id", id_column); ("email", column TEXT); ("password", encrypted_column);
   ("settings", json_column); ("deleted_at", soft_delete_column);
   ("age", column INTEGER)].

(** A table whose soft-delete column is not called [deleted_at]. *)
Definition posts : TableSchema :=
  [("id", id_column); ("title", column TEXT); ("removed_at", soft_delete_column)].

(** A table whose soft-delete column has the empty name. *)
Definition nameless : TableSchema :=
  [("id", id_column); ("", soft_delete_column)].

(** A table without a soft-delete column. *)
Definition notes : TableSchema :=
  [("id", id_column); ("body", column TEXT)].

(** A validator in the manner of the test suite: the full payload needs
    an [email]; a partial payload may hold any of [email], [password],
    [settings] and [age]; unknown keys are dropped, not refused. *)
Definition user_validator : ZodSchema :=
  {| parse := λ data, bool_decide (is_Some (obj_get "email" data));
     partial_parse := λ data,
       match obj_get "email" data with
       | Some (VStr _) | None => true
       | Some _ => false
       end |}.

(** An instance on the reference engine with these tables. *)
Definition world : @GrokDB Reference.database :=
  @Build_GrokDB Reference.database
    Reference.empty_db
    {[ "users" := users; "posts" := posts; "nameless" := nameless;
       "notes" := notes ]}
    {[ "users" := user_validator ]}
    (Some "test-secret-key")
    "./migrations"
    (λ _ _, None)
    [].

Definition now : string := "2024-02-24T10:00:00.000Z".

(** A migration that adds a column and takes it away again. *)
Definition add_status : @Migration Reference.database :=
  {| up := bind (run "ALTER TABLE users ADD COLUMN status TEXT" [])
             (λ _, ret tt);
     down := bind (run "ALTER TABLE users DROP COLUMN status" [])
               (λ _, ret tt) |}.

(** A loader for a migrations directory that exists and whose every
    unit is [add_status]. *)
Definition migrations_dir : @Loader Reference.database :=
  {| existsSync := λ path, String.eqb path "./migrations";
     path_join := λ _ file, "migrations/" +:+ file;
     require := λ _, Ok add_status |}.

(** The same, after the directory has been removed. *)
Definition no_directory : @Loader Reference.database :=
  {| existsSync := λ _, false;
     path_join := λ _ file, "migrations/" +:+ file;
     require := λ _, Ok add_status |}.

(** [world] on an engine whose migrations table records one unit. *)
Definition applied : @GrokDB Reference.database :=
  @with_db Reference.database
    {| Reference.mem_ledger := Some ["20240101090000000_init.ts"];
       Reference.mem_rows := []; Reference.mem_journal := [] |}
    world.

(** A row of [users] as the engine holds it. *)
Definition stored_user : Row :=
  [("id", VNum 1); ("email", VStr "a@b.com");
   ("password", VStr (Reference.encrypt "secret123" "test-secret-key"));
   ("settings", VStr settings_text); ("deleted_at", VNull)].

(** A row whose [settings] column holds no JSON text. *)
Definition damaged_user : Row := [("id", VNum 2); ("settings", VStr "dark")].

(** [world] on an engine loaded with rows. *)
Definition loaded (rows : list Row) : @GrokDB Reference.database :=
  @with_db Reference.database
    {| Reference.mem_ledger := None; Reference.mem_rows := rows;
       Reference.mem_journal := [] |}
    world.

(** A payload for [users]. *)
Definition new_user : Row :=
  [("email", VStr "a@b.com"); ("password", VStr "secret123");
   ("settings", settings); ("nickname", VStr "al")].

(** [world] with a listener of [notes:insert] and one of
    [transaction:commit] that throw. *)
Definition heckled : @GrokDB Reference.database :=
  (on "transaction:commit" (λ _, Some (VStr "boom"))
     (on "notes:insert" (λ _, Some (VStr "boom")) world).2).2.

(** A table with columns named like members of [Object.prototype]. *)
Definition drivers : TableSchema :=
  [("driver", column TEXT); ("constructor", column TEXT);
   ("toString", json_column); ("__proto__", json_column)].

(** A validator in the manner of [z.object({ ... }).strict()]: it
    refuses a key it does not declare. *)
Definition strict_validator : ZodSchema :=
  {| parse := λ data,
       bool_decide (is_Some (obj_get "email" data))
       && forallb (λ key, bool_decide (key ∈ ["email"; "password"]))
            (obj_keys data);
     partial_parse := λ data,
       forallb (λ key, bool_decide (key ∈ ["email"; "password"]))
         (obj_keys data) |}.

End Examples.

(** * Facts about the model *)

(** Induction over values that reaches inside arrays and objects. *)
Lemma value_ind_nested (P : any → Prop) :
  P VUndefined → P VNull → (∀ b, P (VBool b)) → (∀ n, P (VNum n)) →
  (∀ s, P (VStr s)) →
  (∀ l, Forall P l → P (VArr l)) →
  (∀ l, Forall (λ kv, P kv.2) l → P (VObj l)) →
  (∀ f, P (VFunction f)) →
  ∀ v, P v.
Proof.
  intros Hu Hn Hb Hz Hs Ha Ho Hf.
  fix IH 1. intros [ | | b | n | s | l | l | f].
  - exact Hu.
  - exact Hn.
  - apply Hb.
  - apply Hz.
  - apply Hs.
  - apply Ha. induction l as [|x l IHl]; constructor; [apply IH | exact IHl].
  - apply Ho. induction l as [|[k x] l IHl]; constructor; [apply IH | exact IHl].
  - apply Hf.
Qed.

(** ** Strings *)

Lemma append_cons (x : ascii) (a b : string) :
  String x a +:+ b = String x (a +:+ b).
Proof. reflexivity. Qed.

Lemma append_nil_l (b : string) : "" +:+ b = b.
Proof. reflexivity. Qed.

Lemma append_nil_r (a : string) : a +:+ "" = a.
Proof. induction a as [|x a IH]; [reflexivity | by rewrite append_cons, IH]. Qed.

Lemma append_assoc (a b c : string) : (a +:+ b) +:+ c = a +:+ (b +:+ c).
Proof.
  induction a as [|x a IH]; [reflexivity | by rewrite !append_cons, IH].
Qed.

Lemma append_length (a b : string) :
  String.length (a +:+ b) = String.length a + String.length b.
Proof.
  induction a as [|x a IH]; [reflexivity | rewrite append_cons; simpl; lia].
Qed.

Lemma parse_chars_escape_char (c : ascii) (rest : string) :
  JSON.parse_chars (JSON.escape_char c +:+ rest)
  = JSON.cons_char c <$> JSON.parse_chars rest.
Proof.
  destruct c as [[] [] [] [] [] [] [] []]; reflexivity.
Qed.

Lemma parse_chars_escape (s rest : string) :
  JSON.parse_chars (JSON.escape s +:+ String JSON.dquote rest) = Some (s, rest).
Proof.
  induction s as [|c s IH].
  - reflexivity.
  - simpl JSON.escape. rewrite append_assoc, parse_chars_escape_char, IH. reflexivity.
Qed.

(** Numbers *)



Lemma all_digits_string_of_uint (d : Decimal.uint) :
  JSON.all_digits (NilEmpty.string_of_uint d) = true.
Proof. induction d; simpl; auto. Qed.

Lemma span_digits_app (ds rest : string) :
  JSON.all_digits ds = true → JSON.no_digit_head rest = true →
  JSON.span_digits (ds +:+ rest) = (ds, rest).
Proof.
  intros Hds Hrest. induction ds as [|c ds IH].
  - rewrite append_nil_l. destruct rest as [|c r]; [reflexivity|].
    simpl in *. by destruct (JSON.is_digit c).
  - rewrite append_cons. simpl in *.
    apply andb_prop in Hds as [-> Hds]. by rewrite (IH Hds).
Qed.

Lemma to_uint_normal (n : N) : Decimal.unorm (N.to_uint n) = N.to_uint n.
Proof. rewrite <- (Unsigned.of_to n) at 2. by rewrite Unsigned.to_of. Qed.

Lemma N_of_digits_of_N (n : N) :
  JSON.N_of_digits (JSON.digits_of_N n) = Some n.
Proof.
  unfold JSON.digits_of_N.
  pose proof (to_uint_normal n) as Hnorm.
  pose proof (Unsigned.of_to n) as Hof.
  assert (Hgen : N.of_uint <$> NilEmpty.uint_of_string
                   (NilEmpty.string_of_uint (N.to_uint n)) = Some n).
  { by rewrite NilEmpty.usu; simpl; rewrite Hof. }
  destruct (N.to_uint n) as [|d| | | | | | | | | ] eqn:E; try exact Hgen.
  - by destruct (unorm_nonnil Decimal.Nil).
  - destruct d; try exact Hgen;
    (rewrite unorm_D0 in Hnorm;
     match type of Hnorm with Decimal.unorm ?u = _ =>
       assert (Hnz : u ≠ Decimal.Nil) by discriminate;
       pose proof (nb_digits_unorm u Hnz) as Hlen end;
     rewrite Hnorm in Hlen; simpl in Hlen; lia).
Qed.


Lemma follows_no_digit (rest : string) :
  JSON.follows rest = true → JSON.no_digit_head rest = true.
Proof.
  destruct rest as [|c r]; [done|]. simpl.
  destruct c as [[] [] [] [] [] [] [] []]; done.
Qed.

Lemma parse_unsigned_digits (n : N) (rest : string) :
  JSON.follows rest = true →
  JSON.parse_unsigned (JSON.digits_of_N n +:+ rest) = Some (n, rest).
Proof.
  intros Hrest. unfold JSON.parse_unsigned.
  rewrite span_digits_app;
    [|apply all_digits_string_of_uint|by apply follows_no_digit].
  rewrite N_of_digits_of_N. simpl.
  destruct rest as [|c r]; [reflexivity|].
  simpl in Hrest. destruct c as [[] [] [] [] [] [] [] []]; done.
Qed.

Lemma digits_of_N_head (n : N) :
  ∃ c r, JSON.digits_of_N n = String c r ∧ JSON.is_digit c = true.
Proof.
  unfold JSON.digits_of_N.
  pose proof (all_digits_string_of_uint (N.to_uint n)) as Hall.
  pose proof (to_uint_normal n) as Hnorm.
  destruct (N.to_uint n) eqn:E.
  { by destruct (unorm_nonnil Decimal.Nil). }
  all: simpl in *; eexists _, _; split; [reflexivity|reflexivity].
Qed.

Lemma digit_lead (c : ascii) :
  JSON.is_digit c = true → JSON.lead_of c = JSON.LDigit ∧ JSON.is_ws c = false.
Proof. destruct c as [[] [] [] [] [] [] [] []]; done. Qed.


Lemma opens_value_spec (c : ascii) :
  JSON.opens_value c = true →
  JSON.is_ws c = false ∧ Ascii.eqb "]" c = false ∧ Ascii.eqb "}" c = false
  ∧ Ascii.eqb "," c = false.
Proof. destruct c as [[] [] [] [] [] [] [] []]; done. Qed.

Lemma number_to_string_head (n : Z) :
  ∃ c r, JSON.number_to_string n = String c r ∧ JSON.opens_value c = true.
Proof.
  destruct n as [|p|p]; simpl.
  - by eexists _, _.
  - destruct (digits_of_N_head (Npos p)) as (c & r & -> & Hc).
    exists c, r. split; [done|]. unfold JSON.opens_value.
    by rewrite (proj1 (digit_lead c Hc)).
  - by eexists _, _.
Qed.

Lemma serialize_head (v : any) :
  ∃ c r, JSON.serialize v = String c r ∧ JSON.opens_value c = true.
Proof.
  destruct v as [ | | [] | n | s | l | l | f]; simpl;
    try (by eexists _, _).
  apply number_to_string_head.
Qed.

Lemma skip_ws_head (c : ascii) (r : string) :
  JSON.is_ws c = false → JSON.skip_ws (String c r) = String c r.
Proof. intros H. simpl. by rewrite H. Qed.

Lemma skip_ws_serialize (v : any) (rest : string) :
  JSON.skip_ws (JSON.serialize v +:+ rest) = JSON.serialize v +:+ rest.
Proof.
  destruct (serialize_head v) as (c & r & -> & Hc).
  rewrite append_cons. apply skip_ws_head. by apply opens_value_spec.
Qed.

Lemma skip_ws_follows (rest : string) :
  JSON.follows rest = true → JSON.skip_ws rest = rest.
Proof.
  destruct rest as [|c r]; [done|]. simpl.
  destruct c as [[] [] [] [] [] [] [] []]; done.
Qed.

Lemma strip_prefix_char (a c : ascii) (r : string) :
  strip_prefix (String a "") (String c r)
  = if Ascii.eqb a c then Some r else None.
Proof. reflexivity. Qed.

Lemma parse_value_S (fuel : nat) (c : ascii) (r : string) :
  JSON.is_ws c = false →
  JSON.parse_value (S fuel) (String c r) =
    match JSON.lead_of c with
    | JSON.LNull => JSON.parse_literal "ull" VNull r
    | JSON.LTrue => JSON.parse_literal "rue" (VBool true) r
    | JSON.LFalse => JSON.parse_literal "alse" (VBool false) r
    | JSON.LQuote => p ← JSON.parse_chars r; Some (VStr p.1, p.2)
    | JSON.LMinus => p ← JSON.parse_unsigned r; Some (VNum (- Z.of_N p.1), p.2)
    | JSON.LDigit =>
        p ← JSON.parse_unsigned (String c r); Some (VNum (Z.of_N p.1), p.2)
    | JSON.LArr =>
        match strip_prefix "]" (JSON.skip_ws r) with
        | Some r' => Some (VArr [], r')
        | None => p ← JSON.parse_elements fuel r; Some (VArr p.1, p.2)
        end
    | JSON.LObj =>
        match strip_prefix "}" (JSON.skip_ws r) with
        | Some r' => Some (VObj [], r')
        | None =>
            p ← JSON.parse_members fuel r;
            Some (VObj (JSON.obj_of_entries p.1), p.2)
        end
    | JSON.LOther => None
    end.
Proof.
  intros Hc. pose proof (skip_ws_head c r Hc) as E.
  change (JSON.parse_value (S fuel) (String c r)) with
    (match JSON.skip_ws (String c r) with
      | "" => None
      | String c r =>
          match JSON.lead_of c with
    | JSON.LNull => JSON.parse_literal "ull" VNull r
    | JSON.LTrue => JSON.parse_literal "rue" (VBool true) r
    | JSON.LFalse => JSON.parse_literal "alse" (VBool false) r
    | JSON.LQuote => p ← JSON.parse_chars r; Some (VStr p.1, p.2)
    | JSON.LMinus => p ← JSON.parse_unsigned r; Some (VNum (- Z.of_N p.1), p.2)
    | JSON.LDigit =>
        p ← JSON.parse_unsigned (String c r); Some (VNum (Z.of_N p.1), p.2)
    | JSON.LArr =>
        match strip_prefix "]" (JSON.skip_ws r) with
        | Some r' => Some (VArr [], r')
        | None => p ← JSON.parse_elements fuel r; Some (VArr p.1, p.2)
        end
    | JSON.LObj =>
        match strip_prefix "}" (JSON.skip_ws r) with
        | Some r' => Some (VObj [], r')
        | None =>
            p ← JSON.parse_members fuel r;
            Some (VObj (JSON.obj_of_entries p.1), p.2)
        end
    | JSON.LOther => None
    end end).
  by rewrite E.
Qed.

Lemma parse_elements_S (fuel : nat) (s : string) :
  JSON.parse_elements (S fuel) s =
    (p ← JSON.parse_value fuel s;
     match strip_prefix "," (JSON.skip_ws p.2) with
     | Some r => q ← JSON.parse_elements fuel r; Some (p.1 :: q.1, q.2)
     | None =>
         match strip_prefix "]" (JSON.skip_ws p.2) with
         | Some r => Some ([p.1], r)
         | None => None
         end
     end).
Proof. reflexivity. Qed.

Lemma parse_members_S (fuel : nat) (s : string) :
  JSON.parse_members (S fuel) s =
    (r ← strip_prefix (String JSON.dquote "") (JSON.skip_ws s);
     k ← JSON.parse_chars r;
     r1 ← strip_prefix ":" (JSON.skip_ws k.2);
     p ← JSON.parse_value fuel r1;
     match strip_prefix "," (JSON.skip_ws p.2) with
     | Some r2 => q ← JSON.parse_members fuel r2; Some ((k.1, p.1) :: q.1, q.2)
     | None =>
         match strip_prefix "}" (JSON.skip_ws p.2) with
         | Some r2 => Some ([(k.1, p.1)], r2)
         | None => None
         end
     end).
Proof. reflexivity. Qed.


Lemma serialize_obj (l : Row) :
  JSON.serialize (VObj l) = "{" +:+ join "," (JSON.member_texts l) +:+ "}".
Proof. reflexivity. Qed.

Lemma member_texts_cons (k : string) (x : any) (l : Row) :
  written x →
  JSON.member_texts ((k, x) :: l)
  = (JSON.quote k +:+ ":" +:+ JSON.serialize x) :: JSON.member_texts l.
Proof. by destruct x. Qed.

Lemma obj_set_fresh (k : string) (v : any) (o : Row) :
  k ∉ map fst o → obj_set k v o = (o ++ [(k, v)])%list.
Proof.
  induction o as [|[k' x] o IH]; intros Hk; simpl in *; [done|].
  apply not_elem_of_cons in Hk as [Hne Hk].
  destruct (String.eqb_spec k' k) as [->|_]; [done|]. by rewrite IH.
Qed.

Lemma obj_of_entries_app (l acc : Row) :
  NoDup (map fst (acc ++ l)%list) →
  fold_left (λ o kv, obj_set kv.1 kv.2 o) l acc = (acc ++ l)%list.
Proof.
  revert acc. induction l as [|[k v] l IH]; intros acc Hnd; simpl.
  - by rewrite app_nil_r.
  - rewrite obj_set_fresh.
    + rewrite IH; rewrite <- app_assoc; done.
    + rewrite map_app in Hnd. apply NoDup_app in Hnd as (_ & Hdisj & _).
      intros Hin. apply (Hdisj k Hin). simpl. left.
Qed.

Lemma obj_of_entries_nodup (l : Row) :
  NoDup (map fst l) → JSON.obj_of_entries l = l.
Proof. intros H. unfold JSON.obj_of_entries. by rewrite obj_of_entries_app. Qed.

Local Arguments join : simpl never.

Ltac norm_app :=
  repeat (rewrite append_assoc || rewrite append_cons || rewrite append_nil_l).


Lemma serialize_length_pos (v : any) :
  (1 ≤ String.length (JSON.serialize v))%nat.
Proof. destruct (serialize_head v) as (c & r & -> & _). simpl. lia. Qed.

Lemma parse_elements_serialize (l : list any) :
  l ≠ [] → Forall JSON.round_trips l →
  ∀ fuel rest,
    (String.length (join "," (map JSON.serialize l)) < fuel)%nat →
    JSON.parse_elements fuel
      (join "," (map JSON.serialize l) +:+ String "]" rest) = Some (l, rest).
Proof.
  intros Hne Hall. induction Hall as [|x l Hx Hall IH]; [done|].
  intros fuel rest Hfuel. clear Hne.
  destruct fuel as [|fuel]; [lia|]. rewrite parse_elements_S.
  destruct l as [|y l].
  - change (join "," (map JSON.serialize [x])) with (JSON.serialize x) in *.
    rewrite Hx; [|lia|done]. reflexivity.
  - change (join "," (map JSON.serialize (x :: y :: l))) with
      (JSON.serialize x +:+ "," +:+ join "," (map JSON.serialize (y :: l))) in *.
    rewrite !append_length in Hfuel.
    pose proof (serialize_length_pos x).
    norm_app. rewrite Hx; [|lia|done].
    simpl. rewrite ?append_nil_l. rewrite IH; [reflexivity|done|]. simpl in Hfuel |- *. lia.
Qed.

Lemma strip_prefix_same (a : ascii) (r : string) :
  strip_prefix (String a "") (String a r) = Some r.
Proof. rewrite strip_prefix_char. by rewrite Ascii.eqb_refl. Qed.

Local Arguments JSON.skip_ws : simpl never.
Local Arguments strip_prefix : simpl never.
Local Arguments JSON.parse_chars : simpl never.
Local Arguments JSON.parse_value : simpl never.
Local Arguments JSON.parse_members : simpl never.
Local Arguments JSON.parse_elements : simpl never.

Lemma parse_member_text (k : string) (x : any) (rest : string) (fuel : nat)
    (cont : string * string → string → any * string → option (Row * string)) :
  JSON.round_trips x → (String.length (JSON.serialize x) ≤ fuel)%nat →
  JSON.follows rest = true →
  (r ← strip_prefix (String JSON.dquote "")
         (JSON.skip_ws ((JSON.quote k +:+ ":" +:+ JSON.serialize x) +:+ rest));
   k0 ← JSON.parse_chars r;
   r1 ← strip_prefix ":" (JSON.skip_ws k0.2);
   p ← JSON.parse_value fuel r1;
   cont k0 r1 p)
  = cont (k, String ":" (JSON.serialize x +:+ rest))
         (JSON.serialize x +:+ rest) (x, rest).
Proof.
  intros Hx Hfuel Hrest. unfold JSON.quote. norm_app.
  rewrite skip_ws_head by done. rewrite strip_prefix_same. simpl.
  rewrite parse_chars_escape. simpl.
  by rewrite Hx.
Qed.

Lemma parse_members_serialize (l : Row) :
  l ≠ [] → Forall (λ kv, written kv.2 ∧ JSON.round_trips kv.2) l →
  ∀ fuel rest,
    (String.length (join "," (JSON.member_texts l)) < fuel)%nat →
    JSON.parse_members fuel
      (join "," (JSON.member_texts l) +:+ String "}" rest) = Some (l, rest).
Proof.
  intros Hne Hall. induction Hall as [|[k x] l [Hu Hx] Hall IH]; [done|].
  intros fuel rest Hfuel. clear Hne. simpl in Hu, Hx.
  destruct fuel as [|fuel]; [lia|]. rewrite parse_members_S.
  rewrite member_texts_cons in * by done.
  pose proof (serialize_length_pos x).
  destruct l as [|[k' y] l].
  - change (JSON.member_texts []) with (@nil string) in *.
    change (join "," [?a]) with a in *.
    rewrite !append_length in Hfuel. simpl in Hfuel.
    rewrite parse_member_text; [|done|lia|done]. reflexivity.
  - inversion Hall as [|? ? [Hu' _] _]; subst. simpl in Hu'.
    rewrite (member_texts_cons k' y l Hu') in *.
    change (join "," (?a :: ?b :: ?c)) with (a +:+ "," +:+ join "," (b :: c)) in *.
    rewrite !append_length in Hfuel. simpl in Hfuel.
    rewrite (append_assoc _ ("," +:+ _)). rewrite (append_assoc ","). 
    rewrite parse_member_text; [|done|lia|done].
    simpl. rewrite ?append_nil_l. rewrite IH; [reflexivity|done|]. lia.
Qed.

Lemma member_texts_map (l : Row) :
  Forall (λ kv, written kv.2) l →
  JSON.member_texts l = map (λ kv, JSON.quote kv.1 +:+ ":" +:+ JSON.serialize kv.2) l.
Proof.
  induction 1 as [|[k x] l Hx _ IH]; [done|].
  rewrite member_texts_cons by done. simpl. by rewrite IH.
Qed.

Lemma serializable_defined (v : any) : serializable v = true → written v.
Proof. by destruct v. Qed.

Lemma bracketed_length (a b : ascii) (s : string) (fuel : nat) :
  (String.length (String a "" +:+ s +:+ String b "") ≤ S fuel)%nat →
  (String.length s < fuel)%nat.
Proof.
  intros H. rewrite append_cons, append_nil_l in H. simpl in H.
  rewrite append_length in H. simpl in H. lia.
Qed.

Theorem parse_value_serialize (v : any) :
  serializable v = true → JSON.round_trips v.
Proof.
  induction v as [ | | b | n | s | l IH | l IH | f] using value_ind_nested;
    intros Hser fuel rest Hfuel Hrest.
  - done.
  - destruct fuel; [simpl in Hfuel; lia|]. reflexivity.
  - destruct fuel; [destruct b; simpl in Hfuel; lia|]. by destruct b.
  - change (JSON.serialize (VNum n)) with (JSON.number_to_string n) in *.
    destruct fuel as [|fuel].
    { destruct (number_to_string_head n) as (c & r & E & _).
      rewrite E in Hfuel. simpl in Hfuel. lia. }
    destruct n as [|p|p]; simpl JSON.number_to_string.
    + rewrite append_cons, parse_value_S by done.
      change (JSON.lead_of "0") with JSON.LDigit. cbv beta iota.
      change (String "0" ("" +:+ rest)) with (JSON.digits_of_N 0 +:+ rest).
      by rewrite parse_unsigned_digits.
    + destruct (digits_of_N_head (N.pos p)) as (c & r & E & Hc).
      destruct (digit_lead c Hc) as [Hlead Hws].
      rewrite E, append_cons, parse_value_S, Hlead by done.
      rewrite <- append_cons, <- E. by rewrite parse_unsigned_digits.
    + rewrite append_cons, parse_value_S by done.
      change (JSON.lead_of "-") with JSON.LMinus. cbv beta iota.
      by rewrite parse_unsigned_digits.
  - destruct fuel; [simpl in Hfuel; lia|].
    change (JSON.serialize (VStr s)) with (JSON.quote s). unfold JSON.quote.
    norm_app. rewrite parse_value_S by done.
    change (JSON.lead_of JSON.dquote) with JSON.LQuote. cbv beta iota.
    by rewrite parse_chars_escape.
  - destruct fuel; [simpl in Hfuel; lia|].
    change (JSON.serialize (VArr l)) with
      ("[" +:+ join "," (map JSON.serialize l) +:+ "]") in *.
    destruct l as [|x l]; [reflexivity|].
    apply bracketed_length in Hfuel.
    norm_app. rewrite parse_value_S by done.
    change (JSON.lead_of "[") with JSON.LArr. cbv beta iota.
    assert (Hhd : ∃ c r, join "," (map JSON.serialize (x :: l)) = String c r
                         ∧ JSON.opens_value c = true).
    { destruct (serialize_head x) as (c & r & E & Hc).
      destruct l as [|y l].
      - by exists c, r.
      - change (join "," (map JSON.serialize (x :: y :: l))) with
          (JSON.serialize x +:+ "," +:+ join "," (map JSON.serialize (y :: l))).
        rewrite E, append_cons. by eexists _, _. }
    destruct Hhd as (c & r & E & Hc).
    destruct (opens_value_spec c Hc) as (Hws & Hrb & _).
    rewrite E at 1. rewrite append_cons, skip_ws_head, strip_prefix_char, Hrb by done.
    rewrite parse_elements_serialize; [done|done| |done].
    simpl in Hser. apply andb_prop in Hser as [Hx Hl].
    apply Forall_cons in IH as [IHx IHl]. constructor; [by apply IHx|].
    pose proof (proj1 (forallb_forall _ _) Hl) as Hl'. rewrite Forall_forall in IHl |- *.
    intros y Hy. apply IHl; [done|]. apply Hl'. by apply list_elem_of_In.
  - destruct fuel; [simpl in Hfuel; lia|].
    rewrite serialize_obj in *.
    destruct l as [|[k x] l]; [reflexivity|].
    simpl in Hser. apply andb_prop in Hser as [Hnd Hser].
    apply bool_decide_eq_true in Hnd.
    assert (Hall : Forall (λ kv : string * any,
                     written kv.2 ∧ JSON.round_trips kv.2) ((k, x) :: l)).
    { change (serializable x && forallb (λ kv, serializable kv.2) l)
        with (forallb (λ kv : string * any, serializable kv.2) ((k, x) :: l))
        in Hser.
      pose proof (proj1 (forallb_forall _ _) Hser) as Hser'.
      rewrite Forall_forall in IH |- *.
      intros kv Hkv. pose proof (Hser' kv (proj1 (list_elem_of_In _ _) Hkv)).
      split; [by apply serializable_defined | by apply IH]. }
    assert (Hne : JSON.member_texts ((k, x) :: l) ≠ []).
    { rewrite member_texts_cons; [done|]. by inversion Hall as [|? ? [? _] _]. }
    apply bracketed_length in Hfuel.
    norm_app. rewrite parse_value_S by done.
    change (JSON.lead_of "{") with JSON.LObj. cbv beta iota.
    assert (Hhd : ∃ r, join "," (JSON.member_texts ((k, x) :: l))
                       = String JSON.dquote r).
    { rewrite member_texts_cons by (by inversion Hall as [|? ? [? _] _]).
      destruct (JSON.member_texts l); unfold JSON.quote; [by eexists|].
      change (join "," (?a :: ?b :: ?c)) with (a +:+ "," +:+ join "," (b :: c)).
      norm_app. by eexists. }
    destruct Hhd as (r & E).
    rewrite E at 1. rewrite append_cons, skip_ws_head, strip_prefix_char by done.
    change (Ascii.eqb "}" JSON.dquote) with false. cbv iota.
    rewrite parse_members_serialize; [|done|done|done].
    simpl. by rewrite obj_of_entries_nodup.
  - done.
Qed.

(** [JSON.parse(JSON.stringify(v))] is [v]. *)
Theorem parse_stringify (v : any) (s : string) :
  serializable v = true → JSON.stringify v = Some s → JSON.parse s = Ok v.
Proof.
  intros Hser Hs.
  assert (s = JSON.serialize v) as -> by (destruct v; by inversion Hs).
  unfold JSON.parse.
  pose proof (parse_value_serialize v Hser (S (String.length (JSON.serialize v))) "")
    as H.
  rewrite append_nil_r in H. rewrite H; [done|lia|done].
Qed.

(** ** The reference collaborators satisfy their interfaces *)

Lemma strip_prefix_app (p s : string) : strip_prefix p (p +:+ s) = Some s.
Proof.
  induction p as [|c p IH]; [by destruct s|].
  rewrite append_cons.
  change (strip_prefix (String c p) (String c (p +:+ s)))
    with (if Ascii.eqb c c then strip_prefix p (p +:+ s) else None).
  by rewrite Ascii.eqb_refl.
Qed.

Lemma decrypt_encrypt (message key : string) :
  Reference.decrypt (Reference.encrypt message key) key = Ok message.
Proof.
  unfold Reference.decrypt, Reference.encrypt. by rewrite strip_prefix_app.
Qed.

#[export] Instance reference_cipher : CryptoJS :=
  {| AES_encrypt := Reference.encrypt;
     AES_decrypt := Reference.decrypt;
     AES_round_trip := decrypt_encrypt |}.

Lemma mem_create (d : Reference.MemDB) :
  ∃ r d', Reference.mem_run CREATE_MIGRATIONS [] d = inr (r, d')
          ∧ Reference.mem_ledger d'
            = Some (from_option id [] (Reference.mem_ledger d)).
Proof. by eexists _, _. Qed.

#[export] Instance reference_ledger : @MigrationsTable Reference.database :=
  @Build_MigrationsTable Reference.database Reference.mem_ledger mem_create.

(** * The value codec *)

Section Codec.

Context `{CryptoJS}.

(** [JSON.parse] raises nothing but a [SyntaxError]. *)
Lemma parse_throws (s : string) (e : error) :
  JSON.parse s = Throw e → e = SyntaxError.
Proof.
  unfold JSON.parse. intros Hp.
  destruct (JSON.parse_value _ s) as [[v r]|]; [|by inversion Hp].
  destruct (JSON.skip_ws r); by inversion Hp.
Qed.

(** On a column with [json] set, a value other than [null] never
    reaches the encryption branch: the outcome of [processValue] is that
    of the JSON branch alone, whatever the key and the [encrypted] flag. *)
Lemma processValue_json_skips_encryption
    (key : option string) (value : any) (config : ColumnDefinition) :
  json config = true → value ≠ VNull →
  processValue key value config
  = match value with
    | VStr s => JSON.parse s
    | _ => Ok (match JSON.stringify value with
               | Some s => VStr s
               | None => VUndefined
               end)
    end.
Proof.
  intros Hj Hv. unfold processValue. rewrite Hj.
  by destruct value.
Qed.

(** On the values of the model, [processValue] raises exactly when the
    [JSON.parse] it calls does. *)
Lemma processValue_raises
    (key : option string) (config : ColumnDefinition) (value : any) (e : error) :
  processValue key value config = Throw e
  ↔ ∃ s, value = VStr s ∧ json config = true ∧ JSON.parse s = Throw e.
Proof.
  unfold processValue. split.
  - destruct (json config) eqn:Hj, (encrypted config) eqn:He,
      value as [ | | b | n | s | l | l | f], key as [k|];
      simpl; try discriminate; try (destruct (truthy_string k); discriminate);
      intros Hp; by exists s.
  - intros (s & -> & -> & Hp). exact Hp.
Qed.

(** C2 (the code at the failing input).  On a column with both [json]
    and [encrypted] set, and whatever the key, [processValue] stores the
    object [{ theme: 'dark' }] as its readable JSON text: no cipher is
    applied.  [unprocessValue] reads that text back by parsing alone. *)
Theorem json_encrypted_column_stores_readable_text (key : option string) :
  processValue key Examples.settings Examples.secret_json_column
  = Ok (VStr Examples.settings_text)
  ∧ unprocessValue key (VStr Examples.settings_text) Examples.secret_json_column
    = Ok Examples.settings.
Proof. split; reflexivity. Qed.


(** C4 (as amended).  On a column with [json] set, every serialisable
    value that is not a string survives [processValue] followed by
    [unprocessValue]. *)
Theorem json_round_trip_non_string
    (key : option string) (config : ColumnDefinition) (value : any) :
  json config = true → serializable value = true → is_string value = false →
  ∃ stored,
    processValue key value config = Ok stored
    ∧ unprocessValue key stored config = Ok value.
Proof.
  intros Hj Hser Hstr.
  assert (Hparse : ∀ text, JSON.stringify value = Some text →
                           JSON.parse text = Ok value)
    by (intros text; by apply parse_stringify).
  unfold processValue, unprocessValue. rewrite Hj.
  destruct value as [ | | b | n | s | l | l | f]; try discriminate; simpl.
  - exists VNull. by destruct (encrypted config).
  - eexists. split; [reflexivity|]. simpl. by apply Hparse.
  - eexists. split; [reflexivity|]. simpl. by apply Hparse.
  - eexists. split; [reflexivity|]. simpl. by apply Hparse.
  - eexists. split; [reflexivity|]. simpl. by apply Hparse.
Qed.

(** C5 (as amended).  On a column with [encrypted] set and [json] not
    set, every string survives [processValue] followed by
    [unprocessValue]; with a key that is truthy the stored value is the
    cipher text, and without one it is the string itself. *)
Theorem encrypted_round_trip
    (key : option string) (config : ColumnDefinition) (s : string) :
  encrypted config = true → json config = false →
  (∃ stored,
     processValue key (VStr s) config = Ok stored
     ∧ unprocessValue key stored config = Ok (VStr s))
  ∧ (∀ k, key = Some k → truthy_string k = true →
          processValue key (VStr s) config = Ok (VStr (AES_encrypt s k)))
  ∧ (truthy_opt truthy_string key = false →
     processValue key (VStr s) config = Ok (VStr s)).
Proof.
  intros He Hj. unfold processValue, unprocessValue. rewrite He, Hj. simpl.
  destruct key as [k|]; simpl.
  - destruct (truthy_string k) eqn:Hk; simpl.
    + split; [|split; [|done]].
      * eexists. split; [reflexivity|]. simpl.
        by rewrite AES_round_trip.
      * by intros k' [= <-] _.
    + split; [|split; [|done]].
      * eexists. split; [reflexivity|]. by simpl.
      * intros k' [= <-]. by rewrite Hk.
  - split; [|split; [|done]].
    + by eexists.
    + by intros k' [=].
Qed.

(** X1.  [null] passes through both directions of the codec unchanged,
    whatever the column and the key. *)
Theorem null_passes_through (key : option string) (config : ColumnDefinition) :
  processValue key VNull config = Ok VNull
  ∧ unprocessValue key VNull config = Ok VNull.
Proof.
  unfold processValue, unprocessValue.
  destruct (json config), (encrypted config); by split.
Qed.

End Codec.



(** C4: the round trip of a nested object. *)
Lemma json_round_trip_witness :
  json Examples.json_column = true
  ∧ serializable Examples.preferences = true
  ∧ is_string Examples.preferences = false
  ∧ ∃ stored,
      processValue (Some "k") Examples.preferences Examples.json_column
      = Ok stored
      ∧ unprocessValue (Some "k") stored Examples.json_column
        = Ok Examples.preferences.
Proof.
  split; [reflexivity|]. split; [reflexivity|]. split; [reflexivity|].
  apply (json_round_trip_non_string (Some "k") Examples.json_column
           Examples.preferences); reflexivity.
Defined.

(** C4, against the claim as stated: the string ["7"] is parsed on the
    way in, stored as the number 7 and read back as the number 7; the
    string ["hello"] is refused on the way in. *)
Lemma json_string_does_not_round_trip :
  serializable (VStr "7") = true
  ∧ processValue None (VStr "7") Examples.json_column = Ok (VNum 7)
  ∧ unprocessValue None (VNum 7) Examples.json_column = Ok (VNum 7)
  ∧ processValue None (VStr "hello") Examples.json_column = Throw SyntaxError
  ∧ ¬ ∃ stored,
        processValue None (VStr "7") Examples.json_column = Ok stored
        ∧ unprocessValue None stored Examples.json_column = Ok (VStr "7").
Proof.
  repeat split; try reflexivity.
  intros (stored & Hp & Hu). vm_compute in Hp.
  injection Hp as <-. vm_compute in Hu. discriminate.
Qed.

(** C5: the round trip of a password. *)
Lemma encrypted_round_trip_witness :
  encrypted Examples.encrypted_column = true
  ∧ json Examples.encrypted_column = false
  ∧ (∃ stored,
       processValue (Some "k") (VStr "secret123") Examples.encrypted_column
       = Ok stored
       ∧ unprocessValue (Some "k") stored Examples.encrypted_column
         = Ok (VStr "secret123"))
  ∧ processValue None (VStr "secret123") Examples.encrypted_column
    = Ok (VStr "secret123").
Proof.
  split; [reflexivity|]. split; [reflexivity|]. split.
  - apply (encrypted_round_trip (Some "k") Examples.encrypted_column
             "secret123"); reflexivity.
  - apply (encrypted_round_trip None Examples.encrypted_column
             "secret123"); reflexivity.
Defined.

(** C5, against the claim as stated: a column with [encrypted] set that
    also has [json] set refuses the string ["hello"], with or without a
    key. *)
Lemma encrypted_json_column_refuses_text :
  encrypted Examples.secret_json_column = true
  ∧ processValue None (VStr "hello") Examples.secret_json_column
    = Throw SyntaxError
  ∧ processValue (Some "k") (VStr "hello") Examples.secret_json_column
    = Throw SyntaxError
  ∧ processValue None (VStr "hello") Examples.secret_json_column
    ≠ Ok (VStr "hello").
Proof. repeat split; [reflexivity..|discriminate]. Qed.

(** * Reading and writing rows *)

Section Operations.

Context `{CryptoJS} `{Database}.

Lemma find_query_without_limit
    (table : string) (schema : TableSchema) (where_ : Row)
    (options : QueryOptions) :
  truthy_opt truthy_number (limit options) = false →
  find_query table schema where_ options
  = find_query table schema where_ (without_offset options).
Proof.
  intros Hlimit. unfold find_query, without_offset. simpl.
  destruct (limit options) as [n|]; [|reflexivity].
  simpl in Hlimit. by rewrite Hlimit.
Qed.

(** C10.  Without a limit, or with the limit 0, [find] prepares the same
    statement, and so returns the same rows, as with no offset at all. *)
Theorem offset_needs_limit
    (table : string) (where_ : Row) (options : QueryOptions) (w : GrokDB) :
  truthy_opt truthy_number (limit options) = false →
  find table where_ options w = find table where_ (without_offset options) w
  ∧ ∀ schema,
      find_query table schema where_ options
      = find_query table schema where_
          {| limit := None; offset := None;
             includeDeleted := includeDeleted options;
             orderBy := orderBy options |}.
Proof.
  intros Hlimit. split.
  - unfold find, bind, get_table.
    destruct (tables w !! table) as [schema|]; [|reflexivity].
    by rewrite (find_query_without_limit table schema where_ options).
  - intros schema. unfold find_query. simpl.
    destruct (limit options) as [n|]; [|reflexivity].
    simpl in Hlimit. by rewrite Hlimit.
Qed.

(** The encoding loop raises nothing but the parser's exception. *)
Lemma process_row_throws
    (key : option string) (schema : TableSchema) (data : Row) (e : error) :
  code_row (processValue key) schema data = Throw e → e = SyntaxError.
Proof.
  revert data. induction schema as [|[column config] schema IH];
    intros data; simpl; [discriminate|].
  destruct (obj_read column data) as [v|]; [|apply IH].
  destruct (processValue key v config) as [v'|e'] eqn:Hp; [apply IH|].
  intros [= <-].
  apply processValue_raises in Hp as (s & _ & _ & Hp).
  by apply parse_throws in Hp.
Qed.

(** [insert] raises a [ZodError] only from its validation step. *)
Lemma insert_ZodError
    (table : string) (data payload : Row) (w : GrokDB) :
  (insert table data w).1 = Throw (ZodError payload) →
  payload = data
  ∧ ∃ validator,
      validators w !! table = Some validator ∧ parse validator data = false.
Proof.
  unfold insert, bind, get_table, validate, process_row, run, emit, ret.
  destruct (tables w !! table) as [schema|]; [|discriminate].
  destruct (validators w !! table) as [validator|].
  - destruct (parse validator data) eqn:Hv; [|intros [= <-]; eauto].
    destruct (code_row _ schema data) as [row|e] eqn:Hrow.
    + destruct (db_run _ _ _) as [?|[? ?]]; [done|].
      simpl. by destruct (listeners w _ _).
    + simpl. intros [= ->]. by apply process_row_throws in Hrow.
  - destruct (code_row _ schema data) as [row|e] eqn:Hrow.
    + destruct (db_run _ _ _) as [?|[? ?]]; [done|].
      simpl. by destruct (listeners w _ _).
    + simpl. intros [= ->]. by apply process_row_throws in Hrow.
Qed.

(** [update] raises a [ZodError] only from its validation step. *)
Lemma update_ZodError
    (table : string) (data where_ payload : Row) (w : GrokDB) :
  (update table data where_ w).1 = Throw (ZodError payload) →
  payload = data
  ∧ ∃ validator,
      validators w !! table = Some validator
      ∧ partial_parse validator data = false.
Proof.
  unfold update, bind, get_table, validate, process_row, run, emit, ret.
  destruct (tables w !! table) as [schema|]; [|discriminate].
  destruct (validators w !! table) as [validator|].
  - destruct (partial_parse validator data) eqn:Hv; [|intros [= <-]; eauto].
    destruct (code_row _ schema data) as [row|e] eqn:Hrow.
    + destruct (db_run _ _ _) as [?|[? ?]]; [done|].
      simpl. by destruct (listeners w _ _).
    + simpl. intros [= ->]. by apply process_row_throws in Hrow.
  - destruct (code_row _ schema data) as [row|e] eqn:Hrow.
    + destruct (db_run _ _ _) as [?|[? ?]]; [done|].
      simpl. by destruct (listeners w _ _).
    + simpl. intros [= ->]. by apply process_row_throws in Hrow.
Qed.

(** C8.  On a table with a validator, [insert] raises the validation
    error exactly when the validator refuses the payload as a full one,
    [update] exactly when it refuses it as a partial one; the error
    leaves the whole state, the engine included, as it was, whatever the
    encoding or the statement would have done.  On a table without a
    validator neither raises a validation error. *)
Theorem validation_comes_first
    (table : string) (schema : TableSchema) (data where_ : Row) (w : GrokDB) :
  tables w !! table = Some schema →
  (∀ validator,
     validators w !! table = Some validator →
     (parse validator data = false →
      insert table data w = (Throw (ZodError data), w))
     ∧ (partial_parse validator data = false →
        update table data where_ w = (Throw (ZodError data), w))
     ∧ (∀ payload,
          (insert table data w).1 = Throw (ZodError payload)
          → parse validator data = false)
     ∧ (∀ payload,
          (update table data where_ w).1 = Throw (ZodError payload)
          → partial_parse validator data = false))
  ∧ (validators w !! table = None →
     validate true table data w = (Ok tt, w)
     ∧ validate false table data w = (Ok tt, w)
     ∧ ∀ payload,
         (insert table data w).1 ≠ Throw (ZodError payload)
         ∧ (update table data where_ w).1 ≠ Throw (ZodError payload)).
Proof.
  intros Hschema. split.
  - intros validator Hv. repeat split.
    + intros Hreject.
      unfold insert, bind, get_table, validate. by rewrite Hschema, Hv, Hreject.
    + intros Hreject.
      unfold update, bind, get_table, validate. by rewrite Hschema, Hv, Hreject.
    + intros payload Hthrow.
      apply insert_ZodError in Hthrow as (_ & v & Hv' & Hreject).
      by rewrite Hv in Hv'; injection Hv' as <-.
    + intros payload Hthrow.
      apply update_ZodError in Hthrow as (_ & v & Hv' & Hreject).
      by rewrite Hv in Hv'; injection Hv' as <-.
  - intros Hnone. unfold validate. rewrite Hnone. repeat split.
    + intros Hthrow. apply insert_ZodError in Hthrow as (_ & v & Hv & _).
      by rewrite Hnone in Hv.
    + intros Hthrow. apply update_ZodError in Hthrow as (_ & v & Hv & _).
      by rewrite Hnone in Hv.
Qed.

(** X2.  Every method that takes a table raises the same error for a
    table that was never created, and leaves the state as it was. *)
Theorem unknown_table_raises
    (now table : string) (data where_ : Row) (options : QueryOptions)
    (w : GrokDB) :
  tables w !! table = None →
  let e := Error ("Table " +:+ table +:+ " does not exist") in
  insert table data w = (Throw e, w)
  ∧ find table where_ options w = (Throw e, w)
  ∧ update table data where_ w = (Throw e, w)
  ∧ delete now table where_ w = (Throw e, w).
Proof.
  intros Hnone e.
  unfold insert, find, update, delete, bind, get_table. by rewrite Hnone.
Qed.

(** X3.  With [includeDeleted] set, and no ordering or limit, the
    statement of [find] holds the caller's equality predicates and
    nothing else. *)
Theorem include_deleted_adds_no_predicate
    (table : string) (schema : TableSchema) (where_ : Row) :
  find_query table schema where_
    {| limit := None; offset := None; includeDeleted := true; orderBy := None |}
  = (match where_ with
     | [] => "SELECT * FROM " +:+ table
     | _ =>
         "SELECT * FROM " +:+ table +:+ " WHERE "
         +:+ join " AND " (map (λ entry, entry.1 +:+ " = ?") where_)
     end,
     obj_values where_).
Proof.
  unfold find_query. simpl. rewrite andb_false_r. simpl. by destruct where_.
Qed.

End Operations.

(** C10 at a concrete input: an offset of 5 without a limit, and with
    the limit 0. *)
Lemma offset_needs_limit_witness :
  let options :=
    {| limit := Some 0%Z; offset := Some 5%Z; includeDeleted := false;
       orderBy := Some ("age", DESC) |} in
  truthy_opt truthy_number (limit options) = false
  ∧ find "users" [] options Examples.world
    = find "users" [] (without_offset options) Examples.world
  ∧ find_query "users" Examples.users [] options
    = ("SELECT * FROM users WHERE deleted_at IS NULL ORDER BY age DESC", []).
Proof.
  intros options. split; [reflexivity|].
  destruct (offset_needs_limit "users" [] options Examples.world eq_refl)
    as [Hfind Hquery].
  split; [exact Hfind|]. rewrite Hquery. reflexivity.
Defined.

(** C1 (the code at the failing input).  On the table [posts], whose
    soft-delete column is [removed_at], [delete] stamps [removed_at],
    and [find] filters on [deleted_at]. *)
Theorem find_filters_on_deleted_at :
  softDeleteColumn Examples.posts = Some "removed_at"
  ∧ Reference.mem_journal
      (db (delete Examples.now "posts" [("id", VNum 1)] Examples.world).2)
    = [("UPDATE posts SET removed_at = ? WHERE id = ?",
        [VStr Examples.now; VNum 1])]
  ∧ find_query "posts" Examples.posts [("id", VNum 1)] no_options
    = ("SELECT * FROM posts WHERE deleted_at IS NULL AND id = ?", [VNum 1]).
Proof. repeat split; vm_compute; reflexivity. Qed.

(** C8 at concrete inputs, on the table [users] and its validator: a
    payload without [email] is refused by [insert], a payload whose
    [email] is a number is refused by [update]; both also hold a
    [settings] text that [processValue] would refuse, and the validation
    error is the one raised. *)
Lemma validation_comes_first_witness :
  let data := [("password", VStr "password123"); ("settings", VStr "{oops")] in
  let patch := [("email", VNum 1); ("settings", VStr "{oops")] in
  tables Examples.world !! "users" = Some Examples.users
  ∧ processValue (encryptionKey Examples.world) (VStr "{oops")
      Examples.json_column = Throw SyntaxError
  ∧ insert "users" data Examples.world = (Throw (ZodError data), Examples.world)
  ∧ update "users" patch [("id", VNum 1)] Examples.world
    = (Throw (ZodError patch), Examples.world).
Proof.
  intros data patch.
  assert (Htable : tables Examples.world !! "users" = Some Examples.users)
    by (vm_compute; reflexivity).
  split; [exact Htable|]. split; [reflexivity|]. split.
  - apply (proj1 (validation_comes_first "users" Examples.users data
                    [] Examples.world Htable) Examples.user_validator);
      vm_compute; reflexivity.
  - apply (proj1 (validation_comes_first "users" Examples.users patch
                    [("id", VNum 1)] Examples.world Htable)
             Examples.user_validator);
      vm_compute; reflexivity.
Defined.

(** C9 (the code at the failing input).  The table [nameless] declares
    a soft-delete column, and its name is the empty string: [find]
    takes the table for a soft-deleting one, since it looks at the flag,
    while [delete], which tests the name for truthiness, removes the row
    and publishes [nameless:delete] and no [nameless:update]. *)
Theorem nameless_soft_delete_publishes_delete :
  existsb (λ entry, softDelete entry.2) Examples.nameless = true
  ∧ softDeleteColumn Examples.nameless = Some ""
  ∧ find_query "nameless" Examples.nameless [("id", VNum 1)] no_options
    = ("SELECT * FROM nameless WHERE deleted_at IS NULL AND id = ?",
       [VNum 1])
  ∧ emitted (delete Examples.now "nameless" [("id", VNum 1)] Examples.world).2
    = [("nameless:delete", VObj [("id", VNum 1)])]
  ∧ Reference.mem_journal
      (db (delete Examples.now "nameless" [("id", VNum 1)] Examples.world).2)
    = [("DELETE FROM nameless WHERE id = ?", [VNum 1])].
Proof. repeat split; vm_compute; reflexivity. Qed.

(** * Migrations *)

Section Migrations.

Context `{MigrationsTable}.

Variable fs : Loader.


(** X16.  [migrate] never gets to a unit, in either direction.  After
    the migrations table is made, the directory is looked for: when it
    exists, listing it raises, since [readdirSync] is no name of the
    module; when it does not, there is no file to walk.  Nothing but
    the engine has changed, the rows of the migrations table are those
    it had, and the loader is not consulted. *)
Theorem migrate_stops_before_units (direction : MigrateDirection) (w : GrokDB) :
  ∃ result d,
    db_run CREATE_MIGRATIONS [] (db w) = inr (result, d)
    ∧ ledger d = Some (from_option id [] (ledger (db w)))
    ∧ migrate fs direction w
      = (if existsSync fs (migrationPath w)
         then Throw (ReferenceError "readdirSync is not defined")
         else Ok tt,
         with_db d w).
Proof.
  destruct (create_migrations (db w)) as (result & d & Hrun & Hledger).
  exists result, d. split; [done|]. split; [done|].
  unfold migrate, bind, run. rewrite Hrun. unfold migration_files. simpl.
  by destruct (existsSync fs (migrationPath w)).
Qed.


End Migrations.


(** C7 (the code at the failing input).  The migrations directory
    exists and the migrations table records the unit
    [20240101090000000_init.ts]: [migrate('down')] raises at
    [readdirSync] before it walks any unit, so no down-procedure is
    invoked, no statement of one is run and the row stays.  Without the
    directory it returns, and has done as little. *)
Theorem migrate_down_stops_at_readdirSync :
  existsSync Examples.migrations_dir (migrationPath Examples.applied) = true
  ∧ ledger (db Examples.applied) = Some ["20240101090000000_init.ts"]
  ∧ migrate Examples.migrations_dir Down Examples.applied
    = (Throw (ReferenceError "readdirSync is not defined"), Examples.applied)
  ∧ migrate Examples.no_directory Down Examples.applied
    = (Ok tt, Examples.applied).
Proof. repeat split; vm_compute; reflexivity. Qed.

(** X2 at a concrete input: a table the examples never created. *)
Lemma unknown_table_raises_witness :
  tables Examples.world !! "ghosts" = None
  ∧ insert "ghosts" [("id", VNum 1)] Examples.world
    = (Throw (Error "Table ghosts does not exist"), Examples.world)
  ∧ find "ghosts" [] no_options Examples.world
    = (Throw (Error "Table ghosts does not exist"), Examples.world).
Proof.
  assert (Hnone : tables Examples.world !! "ghosts" = None)
    by (vm_compute; reflexivity).
  destruct (unknown_table_raises Examples.now "ghosts" [("id", VNum 1)] []
              no_options Examples.world Hnone) as (Hinsert & Hfind & _).
  split; [exact Hnone|]. split; [exact Hinsert|exact Hfind].
Defined.

(** * Rows through the codec *)

Section Rows.

Context `{CryptoJS}.

Lemma obj_set_keys (key : string) (v : any) (o : Row) :
  is_Some (obj_get key o) → obj_keys (obj_set key v o) = obj_keys o.
Proof.
  induction o as [|[k x] o IH]; simpl; [by intros [? [=]]|].
  destruct (String.eqb_spec k key) as [->|Hne]; [done|].
  intros Hsome. simpl. f_equal. by apply IH.
Qed.

Lemma obj_get_set_same (key : string) (v : any) (o : Row) :
  is_Some (obj_get key o) → obj_get key (obj_set key v o) = Some v.
Proof.
  induction o as [|[k x] o IH]; simpl; [by intros [? [=]]|].
  destruct (String.eqb_spec k key) as [->|Hne]; simpl.
  - by rewrite String.eqb_refl.
  - intros Hsome. destruct (String.eqb_spec k key); [done|]. by apply IH.
Qed.

Lemma obj_get_set_other (key key' : string) (v : any) (o : Row) :
  key' ≠ key → obj_get key' (obj_set key v o) = obj_get key' o.
Proof.
  intros Hne. induction o as [|[k x] o IH]; simpl.
  - destruct (String.eqb_spec key key'); [by subst|done].
  - destruct (String.eqb_spec k key) as [->|Hk]; simpl.
    + destruct (String.eqb_spec key key'); [by subst|done].
    + by rewrite IH.
Qed.

Lemma obj_set_set (key : string) (v v' : any) (o : Row) :
  obj_set key v (obj_set key v' o) = obj_set key v o.
Proof.
  induction o as [|[k x] o IH]; simpl.
  - by rewrite String.eqb_refl.
  - destruct (String.eqb_spec k key) as [->|Hk]; simpl.
    + by rewrite String.eqb_refl.
    + destruct (String.eqb_spec k key); [done|]. by rewrite IH.
Qed.

Lemma obj_set_same (key : string) (v : any) (o : Row) :
  obj_get key o = Some v → obj_set key v o = o.
Proof.
  induction o as [|[k x] o IH]; simpl; [done|].
  destruct (String.eqb_spec k key) as [->|Hk].
  - by intros [= ->].
  - intros Hget. by rewrite IH.
Qed.

(** On a column that is no member of [Object.prototype], the loop
    reads and writes own properties only. *)
Lemma code_row_plain_cons
    (code : any → ColumnDefinition → res any)
    (column : string) (config : ColumnDefinition) (schema : TableSchema)
    (row : Row) :
  plain_columns ((column, config) :: schema) = true →
  plain_columns schema = true
  ∧ code_row code ((column, config) :: schema) row
    = match obj_get column row with
      | Some v =>
          match code v config with
          | Ok v' => code_row code schema (obj_set column v' row)
          | Throw e => Throw e
          end
      | None => code_row code schema row
      end.
Proof.
  unfold plain_columns. simpl.
  intros [Hcolumn Hschema]%andb_prop. split; [done|].
  apply negb_true_iff, bool_decide_eq_false in Hcolumn.
  unfold obj_read, obj_assign.
  destruct (obj_get column row) as [v|]; [done|].
  destruct (inherited column) as [member|]; [|done].
  exfalso. apply Hcolumn. by eexists.
Qed.

(** The coding loop of [insert], [update] and [find] over columns that
    are no members of [Object.prototype] never adds, drops or reorders a
    key of the row, and leaves every column the schema does not declare
    as it was. *)
Lemma code_row_keeps_shape
    (code : any → ColumnDefinition → res any)
    (schema : TableSchema) (row row' : Row) :
  plain_columns schema = true →
  code_row code schema row = Ok row' →
  obj_keys row' = obj_keys row
  ∧ ∀ key, key ∉ map fst schema → obj_get key row' = obj_get key row.
Proof.
  revert row. induction schema as [|[column config] schema IH];
    intros row Hplain.
  - by intros [= <-].
  - destruct (code_row_plain_cons code column config schema row Hplain)
      as [Hplain' ->].
    specialize (λ r, IH r Hplain').
    destruct (obj_get column row) as [v|] eqn:Hget.
    + destruct (code v config) as [v'|e]; [|discriminate].
      intros Hrest. destruct (IH _ Hrest) as [Hkeys Hother]. split.
      * rewrite Hkeys. apply obj_set_keys. by rewrite Hget.
      * intros key [Hne Hkey]%not_elem_of_cons.
        rewrite (Hother key Hkey). by apply obj_get_set_other.
    + intros Hrest. destruct (IH _ Hrest) as [Hkeys Hother]. split; [done|].
      intros key [Hne Hkey]%not_elem_of_cons. by apply Hother.
Qed.

Lemma value_round_trip
    (key : option string) (config : ColumnDefinition) (v : any) :
  storable config v = true →
  ∃ stored,
    processValue key v config = Ok stored
    ∧ unprocessValue key stored config = Ok v.
Proof.
  unfold storable, processValue, unprocessValue.
  destruct (json config) eqn:Hj; simpl.
  - intros [Hser Hstr%negb_true_iff]%andb_prop.
    assert (Hparse : ∀ text, JSON.stringify v = Some text →
                             JSON.parse text = Ok v)
      by (intros text; by apply parse_stringify).
    destruct v as [ | | b | n | s | l | l | f]; try discriminate; simpl.
    + exists VNull. by destruct (encrypted config).
    + eexists. split; [reflexivity|]. simpl. by apply Hparse.
    + eexists. split; [reflexivity|]. simpl. by apply Hparse.
    + eexists. split; [reflexivity|]. simpl. by apply Hparse.
    + eexists. split; [reflexivity|]. simpl. by apply Hparse.
  - intros _. destruct (encrypted config) eqn:He; simpl; [|by eexists].
    destruct v as [ | | b | n | s | l | l | f]; simpl; try (by eexists).
    destruct key as [k|]; simpl; [|by eexists].
    destruct (truthy_string k) eqn:Hk; simpl.
    + eexists. split; [reflexivity|]. simpl. by rewrite AES_round_trip.
    + eexists. split; [reflexivity|]. by simpl.
Qed.

Lemma obj_get_keys (key : string) (o : Row) :
  obj_get key o = None ↔ key ∉ obj_keys o.
Proof.
  induction o as [|[k x] o IH]; simpl.
  - split; [intros _; apply not_elem_of_nil|done].
  - rewrite not_elem_of_cons. destruct (String.eqb_spec k key) as [->|Hk].
    + split; [done|]. by intros [? _].
    + rewrite IH. split; [by intros ?; split|by intros [_ ?]].
Qed.

Lemma obj_set_swap (key key' : string) (v v' : any) (o : Row) :
  key' ≠ key → is_Some (obj_get key o) → is_Some (obj_get key' o) →
  obj_set key v (obj_set key' v' o) = obj_set key' v' (obj_set key v o).
Proof.
  intros Hne. induction o as [|[k y] o IH]; simpl; [by intros [? [=]]|].
  destruct (String.eqb_spec k key') as [Hk'|Hk'],
    (String.eqb_spec k key) as [Hk|Hk]; subst; simpl;
    rewrite ?String.eqb_refl; try congruence.
  - intros _ _. destruct (String.eqb_spec key' key); congruence.
  - intros _ _. destruct (String.eqb_spec key key'); congruence.
  - intros Hkey Hkey'.
    destruct (String.eqb_spec k key), (String.eqb_spec k key'); try congruence.
    by rewrite IH.
Qed.

Lemma code_row_set_commute
    (code : any → ColumnDefinition → res any)
    (schema : TableSchema) (key : string) (v : any) (o : Row) :
  plain_columns schema = true →
  key ∉ map fst schema → is_Some (obj_get key o) →
  code_row code schema (obj_set key v o)
  = match code_row code schema o with
    | Ok r => Ok (obj_set key v r)
    | Throw e => Throw e
    end.
Proof.
  revert o. induction schema as [|[column config] schema IH];
    intros o Hplain Hfresh Hsome; [done|].
  destruct (code_row_plain_cons code column config schema o Hplain)
    as [Hrest ->].
  destruct (code_row_plain_cons code column config schema (obj_set key v o)
              Hplain) as [_ ->].
  specialize (λ r, IH r Hrest).
  apply not_elem_of_cons in Hfresh as [Hne Hfresh]. simpl in Hne.
  rewrite (obj_get_set_other key column v o) by done.
  destruct (obj_get column o) as [x|] eqn:Hget; [|by apply IH].
  destruct (code x config) as [x'|e]; [|done].
  rewrite (obj_set_swap column key x' v o); [|done| |done].
  2: { by rewrite Hget. }
  apply IH; [done|].
  rewrite obj_get_set_other by done. exact Hsome.
Qed.

(** X5.  On a schema none of whose columns is named like a member of
    [Object.prototype], a row whose values are storable in their
    columns is read back as it was written: the decoding loop of [find]
    undoes the encoding loop of [insert] and [update], whatever the
    key. *)
Theorem row_round_trip
    (key : option string) (schema : TableSchema) (row : Row) :
  plain_columns schema = true →
  NoDup (map fst schema) →
  (∀ column config v,
     (column, config) ∈ schema → obj_get column row = Some v →
     storable config v = true) →
  ∃ stored,
    code_row (processValue key) schema row = Ok stored
    ∧ code_row (unprocessValue key) schema stored = Ok row.
Proof.
  revert row. induction schema as [|[column config] schema IH];
    intros row Hplain Hnd Hstorable.
  - by exists row.
  - destruct (code_row_plain_cons (processValue key) column config schema row
                Hplain) as [Hrest ->].
    assert (Hout : ∀ stored,
              code_row (unprocessValue key) ((column, config) :: schema) stored
              = match obj_get column stored with
                | Some v =>
                    match unprocessValue key v config with
                    | Ok v' =>
                        code_row (unprocessValue key) schema
                          (obj_set column v' stored)
                    | Throw e => Throw e
                    end
                | None => code_row (unprocessValue key) schema stored
                end).
    { intros stored.
      by destruct (code_row_plain_cons (unprocessValue key) column config
                     schema stored Hplain) as [_ ->]. }
    setoid_rewrite Hout. clear Hout.
    specialize (λ r, IH r Hrest).
    apply NoDup_cons in Hnd as [Hfresh Hnd]. simpl in Hfresh.
    destruct (obj_get column row) as [v|] eqn:Hget.
    + destruct (value_round_trip key config v) as (v' & Hencode & Hdecode).
      { apply (Hstorable column config v); [apply elem_of_cons; by left|done]. }
      rewrite Hencode.
      destruct (IH (obj_set column v' row) Hnd) as (stored & Hin & Hout).
      { intros c cfg x Hc Hx. apply (Hstorable c cfg x).
        - apply elem_of_cons. by right.
        - rewrite obj_get_set_other in Hx; [done|]. intros ->.
          apply Hfresh. apply list_elem_of_fmap. by exists (column, cfg). }
      exists stored. split; [done|].
      destruct (code_row_keeps_shape _ _ _ _ Hrest Hin) as [_ Hother].
      rewrite (Hother column Hfresh).
      rewrite obj_get_set_same by (by rewrite Hget).
      rewrite Hdecode.
      rewrite code_row_set_commute; [|done|done|].
      * rewrite Hout, obj_set_set. f_equal. by apply obj_set_same.
      * rewrite (Hother column Hfresh).
        rewrite obj_get_set_same by (by rewrite Hget). by eexists.
    + destruct (IH row Hnd) as (stored & Hin & Hout).
      { intros c cfg x Hc Hx. apply (Hstorable c cfg x); [|done].
        apply elem_of_cons. by right. }
      exists stored. split; [done|].
      destruct (code_row_keeps_shape _ _ _ _ Hrest Hin) as [Hkeys _].
      assert (Hnone : obj_get column stored = None).
      { apply obj_get_keys. rewrite Hkeys. by apply obj_get_keys. }
      by rewrite Hnone.
Qed.

(** What the loops assign under an inherited [__proto__]: on the way in
    on a column with [json] set the text of the prototype, a string,
    and in every other case the prototype itself.  The setter ignores
    the first and is given the prototype the row already has by the
    second. *)
Lemma proto_assignment (key : option string) (config : ColumnDefinition) :
  inherited "__proto__" = Some (VObj [])
  ∧ (processValue key (VObj []) config = Ok (VStr "{}")
     ∨ processValue key (VObj []) config = Ok (VObj []))
  ∧ unprocessValue key (VObj []) config = Ok (VObj []).
Proof.
  split; [done|]. unfold processValue, unprocessValue.
  destruct (json config), (encrypted config); simpl; split; auto.
Qed.

End Rows.

(** A column named like a member of [Object.prototype] that the row
    lacks is read from the prototype and, unless it is [__proto__],
    becomes a key of the row: on the way in with the function, or with
    [undefined] on a column with [json] set; on the way out with the
    function. *)
Lemma inherited_column_is_added :
  plain_columns Examples.drivers = false
  ∧ code_row (processValue None) Examples.drivers [("driver", VStr "ada")]
    = Ok [("driver", VStr "ada"); ("constructor", VFunction "Object");
          ("toString", VUndefined)]
  ∧ code_row (unprocessValue None) Examples.drivers [("driver", VStr "ada")]
    = Ok [("driver", VStr "ada"); ("constructor", VFunction "Object");
          ("toString", VFunction "toString")].
Proof. repeat split; vm_compute; reflexivity. Qed.

Lemma user_row_storable (column : string) (config : ColumnDefinition) (v : any) :
  (column, config) ∈ Examples.users →
  obj_get column
    [("email", VStr "a@b.com"); ("password", VStr "secret123");
     ("settings", Examples.preferences); ("deleted_at", VNull)] = Some v →
  storable config v = true.
Proof.
  intros Hin Hget. unfold Examples.users in Hin.
  repeat (apply elem_of_cons in Hin as [[= -> ->]|Hin];
          [vm_compute in Hget; try discriminate; by injection Hget as <-|]).
  by apply elem_of_nil in Hin.
Qed.

(** X5 at a concrete input: a user row with a password, nested settings
    and a [null] soft-delete column. *)
Lemma row_round_trip_witness :
  let row :=
    [("email", VStr "a@b.com"); ("password", VStr "secret123");
     ("settings", Examples.preferences); ("deleted_at", VNull)] in
  plain_columns Examples.users = true
  ∧ NoDup (map fst Examples.users)
  ∧ ∃ stored,
      code_row (processValue (Some "k")) Examples.users row = Ok stored
      ∧ code_row (unprocessValue (Some "k")) Examples.users stored = Ok row
      ∧ obj_get "password" stored = Some (VStr (AES_encrypt "secret123" "k")).
Proof.
  intros row.
  assert (Hnd : NoDup (map fst Examples.users)).
  { apply (bool_decide_unpack _). vm_compute. exact I. }
  split; [vm_compute; reflexivity|]. split; [exact Hnd|].
  destruct (row_round_trip (Some "k") Examples.users row
              ltac:(vm_compute; reflexivity) Hnd user_row_storable)
    as (stored & Hin & Hout).
  exists stored. split; [exact Hin|]. split; [exact Hout|].
  vm_compute in Hin. injection Hin as <-. reflexivity.
Defined.

(** * What writes and reads leave behind *)

Section Effects.

Context `{CryptoJS} `{Database}.

Lemma obj_values_length (row : Row) :
  length (obj_values row) = length (obj_keys row).
Proof. unfold obj_values, obj_keys. by rewrite !length_map. Qed.

Lemma placeholders_of_length {A B} (l : list A) (k : list B) :
  length l = length k →
  map (λ _, "?") l = map (λ _, "?") k.
Proof.
  revert k. induction l as [|x l IH]; intros [|y k]; simpl; try done.
  intros [= Hlen]. f_equal. by apply IH.
Qed.

(** X4.  On a table none of whose columns is named like a member of
    [Object.prototype], the one statement [insert] runs names the keys
    of the caller's payload, every one of them and in the payload's
    order, whether the schema declares them or not, with one
    placeholder each; the values it binds are those of a row with the
    same keys in which the columns the schema does not declare are as
    the caller gave them. *)
Theorem insert_names_payload_keys
    (table : string) (data : Row) (schema : TableSchema) (w : GrokDB)
    (result : RunResult) :
  tables w !! table = Some schema →
  plain_columns schema = true →
  (insert table data w).1 = Ok result →
  ∃ row,
    obj_keys row = obj_keys data
    ∧ (∀ key, key ∉ map fst schema → obj_get key row = obj_get key data)
    ∧ db_run
        ("INSERT INTO " +:+ table +:+ " (" +:+ join ", " (obj_keys data)
         +:+ ") VALUES (" +:+ join ", " (map (λ _, "?") (obj_keys data))
         +:+ ")")
        (obj_values row) (db w)
      = inr (result, db (insert table data w).2).
Proof.
  intros Hschema Hplain.
  unfold insert, bind, get_table, validate, process_row, run, emit, ret.
  rewrite Hschema.
  destruct (validators w !! table) as [validator|];
    [destruct (parse validator data); [|done]|];
    (destruct (code_row _ schema data) as [row|e'] eqn:Hrow; [|done]);
    (destruct (code_row_keeps_shape _ _ _ _ Hplain Hrow) as [Hkeys Hother]);
    rewrite (placeholders_of_length (obj_values row) (obj_keys row)
               (obj_values_length row)), Hkeys;
    (destruct (db_run _ _ _) as [?|[r d]] eqn:Hrun; [done|]);
    simpl; (destruct (listeners w _ _); [done|]);
    simpl; intros [= ->]; exists row; by rewrite Hrun.
Qed.

Lemma run_then_emit
    (sql : string) (values : list any) (topic : string)
    (payload : RunResult → any) (w : GrokDB) :
  (∀ result result', payload result = payload result') →
  raises_before_or_in_listener
    (bind (run sql values)
       (λ result, bind (emit topic (payload result)) (λ _, ret result))) w.
Proof.
  intros Hpayload e. unfold bind, run, emit, ret.
  destruct (db_run sql values (db w)) as [message|[result d]] eqn:Hrun.
  - intros [= <-]. (left; split; [done|intros ?; discriminate]).
  - simpl. destruct (listeners w topic (payload result)) as [thrown|] eqn:Hl;
      [|done].
    intros [= <-]. right. exists thrown. split; [done|].
    exists sql, values, result, topic, (payload result). by rewrite Hrun.
Qed.

(** X6.  A write raises in one of two ways.  Before it has done
    anything: then the engine, the registry, the validators and the
    published events are as before, and the exception is that of the
    unknown table, the validator, the encoding or the engine.  Or by a
    listener of its event: then its statement has run and the event is
    published, and the exception is the listener's. *)
Theorem write_raises_before_or_in_listener
    (now table : string) (data where_ : Row) (w : GrokDB) :
  raises_before_or_in_listener (insert table data) w
  ∧ raises_before_or_in_listener (update table data where_) w
  ∧ raises_before_or_in_listener (delete now table where_) w.
Proof.
  assert (Hupdate : ∀ payload,
            raises_before_or_in_listener (update table payload where_) w).
  { intros payload e.
    pose proof (λ sql values,
                  run_then_emit sql values (table +:+ ":update")
                    (λ _, VObj [("where", VObj where_);
                                ("data", VObj payload)]) w
                    (λ _ _, eq_refl) e) as Hrun.
    revert Hrun.
    unfold update, bind, get_table, validate, process_row.
    destruct (tables w !! table) as [schema|];
      [|intros _ [= <-]; (left; split; [done|intros ?; discriminate])].
    destruct (validators w !! table) as [validator|];
      [destruct (partial_parse validator payload);
         [|intros _ [= <-]; (left; split; [done|intros ?; discriminate])]|];
      (destruct (code_row _ schema payload) as [row|e'] eqn:Hrow;
         [|apply process_row_throws in Hrow as ->;
           intros _ [= <-]; (left; split; [done|intros ?; discriminate])]);
      intros Hrun; apply Hrun. }
  split; [|split].
  - intros e.
    unfold insert, bind, get_table, validate, process_row, run, emit, ret.
    destruct (tables w !! table) as [schema|]; [|intros [= <-]; (left; split; [done|intros ?; discriminate])].
    destruct (validators w !! table) as [validator|];
      [destruct (parse validator data); [|intros [= <-]; (left; split; [done|intros ?; discriminate])]|];
      (destruct (code_row _ schema data) as [row|e'] eqn:Hrow;
         [|apply process_row_throws in Hrow as ->;
           intros [= <-]; (left; split; [done|intros ?; discriminate])]);
      (destruct (db_run _ _ _) as [message|[result d]] eqn:Hrun;
         [intros [= <-]; (left; split; [done|intros ?; discriminate])|]);
      simpl;
      (destruct (listeners w _ _) as [thrown|] eqn:Hl; [|done]);
      intros [= <-]; right; exists thrown; (split; [done|]);
      eexists _, _, result, _, _; by rewrite Hrun.
  - apply Hupdate.
  - intros e. unfold delete, bind, get_table.
    destruct (tables w !! table) as [schema|] eqn:Hschema;
      [|intros [= <-]; (left; split; [done|intros ?; discriminate])].
    assert (Hphysical : raises_before_or_in_listener
                          (physical_delete table where_) w).
    { apply (run_then_emit _ _ (table +:+ ":delete") (λ _, VObj where_)).
      done. }
    destruct (softDeleteColumn schema) as [column|]; [|apply Hphysical].
    destruct (truthy_string column); [apply Hupdate|apply Hphysical].
Qed.

(** X7.  When [insert] returns, it has published exactly one event,
    [<table>:insert], whose payload is the caller's payload as given
    (not the encoded row) with [id] set to the row id the engine
    returned; the registry, the validators, the key and the migrations
    path are untouched. *)
Theorem insert_publishes
    (table : string) (data : Row) (w : GrokDB) (result : RunResult) :
  (insert table data w).1 = Ok result →
  emitted (insert table data w).2
  = (emitted w
     ++ [(table +:+ ":insert",
          VObj (obj_set "id" (VNum (lastInsertRowid result)) data))])%list
  ∧ keeps_settings w (insert table data w).2.
Proof.
  unfold insert, bind, get_table, validate, process_row, run, emit, ret.
  destruct (tables w !! table) as [schema|]; [|done].
  destruct (validators w !! table) as [validator|];
    [destruct (parse validator data); [|done]|];
    (destruct (code_row _ schema data) as [row|e']; [|done]);
    (destruct (db_run _ _ _) as [?|[r d]]; [done|]);
    simpl; (destruct (listeners w _ _); [done|]);
    simpl; by intros [= ->].
Qed.

Lemma unprocess_rows_Ok
    (key : option string) (schema : TableSchema) (rows rows' : list Row) :
  unprocess_rows key schema rows = Ok rows' →
  Forall2 (λ row row', code_row (unprocessValue key) schema row = Ok row')
    rows rows'.
Proof.
  revert rows'. induction rows as [|row rows IH]; intros rows'; simpl.
  - intros [= <-]. constructor.
  - destruct (code_row _ schema row) as [row'|e] eqn:Hrow; [|done].
    destruct (unprocess_rows key schema rows) as [rest|e]; [|done].
    intros [= <-]. constructor; [done|by apply IH].
Qed.

Lemma unprocess_rows_Throw
    (key : option string) (schema : TableSchema) (rows : list Row)
    (row : Row) (e : error) :
  row ∈ rows → code_row (unprocessValue key) schema row = Throw e →
  ∃ e', unprocess_rows key schema rows = Throw e'.
Proof.
  intros Hin Hrow. induction rows as [|first rows IH];
    [by apply elem_of_nil in Hin|].
  simpl. apply elem_of_cons in Hin as [<-|Hin].
  - rewrite Hrow. by eexists.
  - destruct (code_row _ schema first); [|by eexists].
    destruct (IH Hin) as [e' ->]. by eexists.
Qed.

(** X8.  [find] changes nothing, and on a table none of whose columns
    is named like a member of [Object.prototype], when it returns, it
    returns one row per row of the engine, in the engine's order, each
    with the keys the engine gave it and with the columns the schema
    does not declare as the engine gave them. *)
Theorem find_returns_engine_rows
    (table : string) (where_ : Row) (options : QueryOptions)
    (schema : TableSchema) (rows : list Row) (w : GrokDB) :
  tables w !! table = Some schema →
  plain_columns schema = true →
  db_all (find_query table schema where_ options).1
    (find_query table schema where_ options).2 (db w) = inr rows →
  (find table where_ options w).2 = w
  ∧ ∀ rows',
      (find table where_ options w).1 = Ok rows' →
      Forall2
        (λ row row',
           obj_keys row' = obj_keys row
           ∧ ∀ key, key ∉ map fst schema → obj_get key row' = obj_get key row)
        rows rows'.
Proof.
  intros Hschema Hplain Hall. unfold find, bind, get_table, all.
  rewrite Hschema.
  destruct (find_query table schema where_ options) as [text values].
  simpl in Hall. rewrite Hall. simpl. split; [done|].
  intros rows' Hrows. apply unprocess_rows_Ok in Hrows.
  eapply Forall2_impl; [exact Hrows|].
  intros row row' Hrow. simpl in Hrow.
  exact (code_row_keeps_shape _ schema row row' Hplain Hrow).
Qed.

(** X9.  One row that cannot be decoded fails the whole read: when the
    decoding of any row the engine returns raises, [find] raises and
    returns no row at all. *)
Theorem find_fails_on_undecodable_row
    (table : string) (where_ : Row) (options : QueryOptions)
    (schema : TableSchema) (rows : list Row) (row : Row) (e : error)
    (w : GrokDB) :
  tables w !! table = Some schema →
  db_all (find_query table schema where_ options).1
    (find_query table schema where_ options).2 (db w) = inr rows →
  row ∈ rows →
  code_row (unprocessValue (encryptionKey w)) schema row = Throw e →
  (find table where_ options w).1 = Throw SyntaxError.
Proof.
  intros Hschema Hall Hin Hrow. unfold find, bind, get_table, all.
  rewrite Hschema.
  destruct (find_query table schema where_ options) as [text values].
  simpl in Hall. rewrite Hall. simpl.
  destruct (unprocess_rows_Throw _ schema rows row e Hin Hrow) as [e' He'].
  rewrite He'. f_equal.
  clear -He'. revert He'. induction rows as [|first rows IH]; simpl; [done|].
  destruct (code_row _ schema first) as [first'|e1] eqn:Hfirst.
  - destruct (unprocess_rows _ schema rows); [done|].
    intros [= ->]. by apply IH.
  - intros [= ->]. clear IH. revert first Hfirst.
    induction schema as [|[column config] schema IHs]; intros first; simpl;
      [done|].
    destruct (obj_read column first) as [v|]; [|apply IHs].
    destruct (unprocessValue _ v config) as [v'|e2] eqn:Hv; [apply IHs|].
    intros [= ->]. unfold unprocessValue in Hv.
    destruct (json config && negb (is_null v)).
    + destruct v; try discriminate. by apply parse_throws in Hv.
    + destruct (encrypted config && is_string v && _); [|done].
      destruct v, (encryptionKey w); try discriminate.
      by destruct (AES_decrypt _ _).
Qed.

End Effects.

(** X6 at a concrete input: a listener of [notes:insert] throws, and
    [insert] raises what it throws with the row written and the event
    published. *)
Lemma write_raises_before_or_in_listener_witness :
  let data := [("body", VStr "text")] in
  let after := (insert "notes" data Examples.heckled).2 in
  (insert "notes" data Examples.heckled).1
  = Throw (ListenerError (VStr "boom"))
  ∧ raised_by_listener Examples.heckled after (VStr "boom")
  ∧ Reference.mem_journal (db after)
    = [("INSERT INTO notes (body) VALUES (?)", [VStr "text"])]
  ∧ emitted after
    = [("notes:insert", VObj [("body", VStr "text"); ("id", VNum 1)])].
Proof.
  intros data after.
  assert (Hthrow : (insert "notes" data Examples.heckled).1
                   = Throw (ListenerError (VStr "boom")))
    by (vm_compute; reflexivity).
  split; [exact Hthrow|].
  destruct (write_raises_before_or_in_listener Examples.now "notes" data []
              Examples.heckled) as [Hinsert _].
  destruct (Hinsert _ Hthrow) as [[_ Hnot]|(thrown & Heq & Hraised)].
  - destruct (Hnot (VStr "boom") eq_refl).
  - injection Heq as <-. split; [exact Hraised|].
    split; vm_compute; reflexivity.
Defined.

(** X4 at a concrete input: a payload with a key the schema does not
    declare. *)
Lemma insert_names_payload_keys_witness :
  ∃ row,
    obj_keys row = ["email"; "password"; "settings"; "nickname"]
    ∧ (∀ key, key ∉ map fst Examples.users
              → obj_get key row = obj_get key Examples.new_user)
    ∧ db_run
        "INSERT INTO users (email, password, settings, nickname) VALUES (?, ?, ?, ?)"
        (obj_values row) (db Examples.world)
      = inr ({| changes := 1; lastInsertRowid := 1 |},
             db (insert "users" Examples.new_user Examples.world).2).
Proof.
  exact (insert_names_payload_keys "users" Examples.new_user Examples.users
           Examples.world {| changes := 1; lastInsertRowid := 1 |}
           ltac:(vm_compute; reflexivity) ltac:(vm_compute; reflexivity)
           ltac:(vm_compute; reflexivity)).
Defined.

(** X7 at a concrete input: the event carries the password as the
    caller gave it. *)
Lemma insert_publishes_witness :
  emitted (insert "users" Examples.new_user Examples.world).2
  = [("users:insert",
      VObj [("email", VStr "a@b.com"); ("password", VStr "secret123");
            ("settings", Examples.settings); ("nickname", VStr "al");
            ("id", VNum 1)])]
  ∧ keeps_settings Examples.world
      (insert "users" Examples.new_user Examples.world).2.
Proof.
  exact (insert_publishes "users" Examples.new_user Examples.world
           {| changes := 1; lastInsertRowid := 1 |}
           ltac:(vm_compute; reflexivity)).
Defined.

(** X8 at a concrete input. *)
Lemma find_returns_engine_rows_witness :
  let w := Examples.loaded [Examples.stored_user] in
  (find "users" [] no_options w).2 = w
  ∧ ∀ rows',
      (find "users" [] no_options w).1 = Ok rows' →
      Forall2
        (λ row row',
           obj_keys row' = obj_keys row
           ∧ ∀ key, key ∉ map fst Examples.users
                    → obj_get key row' = obj_get key row)
        [Examples.stored_user] rows'.
Proof.
  exact (find_returns_engine_rows "users" [] no_options Examples.users
           [Examples.stored_user] (Examples.loaded [Examples.stored_user])
           ltac:(vm_compute; reflexivity) ltac:(vm_compute; reflexivity)
           ltac:(vm_compute; reflexivity)).
Defined.

(** X9 at a concrete input: the second row spoils the first. *)
Lemma find_fails_on_undecodable_row_witness :
  let w := Examples.loaded [Examples.stored_user; Examples.damaged_user] in
  code_row (unprocessValue (encryptionKey w)) Examples.users
    Examples.stored_user
  = Ok [("id", VNum 1); ("email", VStr "a@b.com");
        ("password", VStr "secret123"); ("settings", Examples.settings);
        ("deleted_at", VNull)]
  ∧ (find "users" [] no_options w).1 = Throw SyntaxError.
Proof.
  intros w. split; [vm_compute; reflexivity|].
  apply (find_fails_on_undecodable_row "users" [] no_options Examples.users
           [Examples.stored_user; Examples.damaged_user] Examples.damaged_user
           SyntaxError w);
    [vm_compute; reflexivity | vm_compute; reflexivity | | vm_compute; reflexivity].
  apply elem_of_cons; right; apply elem_of_cons; by left.
Defined.

(** * The schema registry *)

Section Registry.

Context `{CryptoJS} `{Database}.

Lemma with_db_db (w : GrokDB) : with_db (db w) w = w.
Proof. by destruct w. Qed.

Lemma with_db_with_db (d d' : DB) (w : GrokDB) :
  with_db d' (with_db d w) = with_db d' w.
Proof. done. Qed.

(** A statement changes the engine and nothing else. *)
Lemma run_with_db (sql : string) (params : list any) (w : GrokDB) :
  ∃ d, (run sql params w).2 = with_db d w.
Proof.
  unfold run. destruct (db_run _ _ _) as [?|[r d]]; simpl.
  - exists (db w). by rewrite with_db_db.
  - by exists d.
Qed.

Lemma ret_with_db {A} (a : A) (w : GrokDB) :
  ∃ d, (ret a w).2 = with_db d w.
Proof. exists (db w). simpl. by rewrite with_db_db. Qed.

Lemma bind_with_db {A B} (m : M A) (k : A → M B) :
  (∀ w, ∃ d, (m w).2 = with_db d w) →
  (∀ a w, ∃ d, (k a w).2 = with_db d w) →
  ∀ w, ∃ d, (bind m k w).2 = with_db d w.
Proof.
  intros Hm Hk w. unfold bind. destruct (Hm w) as [d Hd].
  destruct (m w) as [[a|e] w1]; simpl in Hd; subst w1.
  - destruct (Hk a (with_db d w)) as [d' Hd']. exists d'. by rewrite Hd'.
  - by exists d.
Qed.

Lemma run_each_with_db (statements : list string) (w : GrokDB) :
  ∃ d, (run_each statements w).2 = with_db d w.
Proof.
  revert w. induction statements as [|sql rest IH]; simpl.
  - intros w. exact (ret_with_db tt w).
  - apply bind_with_db; [apply run_with_db|done].
Qed.

Lemma add_columns_with_db (table : string) (columns : TableSchema) (w : GrokDB) :
  ∃ d, (add_columns table columns w).2 = with_db d w.
Proof.
  revert w. induction columns as [|[name config] rest IH]; simpl.
  - intros w. exact (ret_with_db tt w).
  - apply bind_with_db; [apply run_with_db|]. intros _.
    apply bind_with_db; [|done].
    destruct (index config); [|intros w'; exact (ret_with_db tt w')].
    apply bind_with_db; [apply run_with_db|]. intros _ w'. exact (ret_with_db tt w').
Qed.

Lemma append_temp_neq (table : string) : table +:+ "_temp" ≠ table.
Proof.
  intros Heq. apply (f_equal String.length) in Heq.
  rewrite append_length in Heq. simpl in Heq. lia.
Qed.

(** ** Property lists *)

Lemma filter_agree {A} (P Q : A → Prop)
    `{∀ x, Decision (P x)} `{∀ x, Decision (Q x)} (l : list A) :
  (∀ x, x ∈ l → P x ↔ Q x) → filter P l = filter Q l.
Proof.
  induction l as [|x l IH]; intros Hagree; [done|].
  rewrite !filter_cons.
  rewrite IH by (intros y Hy; apply Hagree, elem_of_cons; by right).
  pose proof (Hagree x ltac:(apply elem_of_cons; by left)) as Hx.
  destruct (decide (P x)), (decide (Q x)); tauto.
Qed.

Lemma entry_get_None {V} (key : string) (o : list (string * V)) :
  key ∉ map fst o → entry_get key o = None.
Proof.
  induction o as [|[k v] o IH]; simpl; [done|].
  intros [Hne Hrest]%not_elem_of_cons.
  destruct (String.eqb_spec k key) as [->|_]; [done|by apply IH].
Qed.

Lemma entry_get_set_same {V} (key : string) (v : V) (o : list (string * V)) :
  entry_get key (entry_set key v o) = Some v.
Proof.
  induction o as [|[k x] o IH]; simpl.
  - by rewrite String.eqb_refl.
  - destruct (String.eqb_spec k key) as [->|Hne]; simpl.
    + by rewrite String.eqb_refl.
    + by destruct (String.eqb_spec k key).
Qed.

Lemma entry_get_set_other {V} (key other : string) (v : V)
    (o : list (string * V)) :
  other ≠ key → entry_get other (entry_set key v o) = entry_get other o.
Proof.
  intros Hne. induction o as [|[k x] o IH]; simpl.
  - by destruct (String.eqb_spec key other) as [->|_].
  - destruct (String.eqb_spec k key) as [->|Hk]; simpl.
    + by destruct (String.eqb_spec key other) as [->|_].
    + by rewrite IH.
Qed.

Lemma entry_set_keys {V} (key : string) (v : V) (o : list (string * V)) :
  map fst (entry_set key v o)
  = if bool_decide (key ∈ map fst o) then map fst o
    else (map fst o ++ [key])%list.
Proof.
  induction o as [|[k x] o IH]; simpl; [done|].
  destruct (String.eqb_spec k key) as [->|Hk]; simpl.
  - rewrite bool_decide_eq_true_2; [done|]. apply elem_of_cons; by left.
  - rewrite IH. destruct (bool_decide (key ∈ map fst o)) eqn:Hin.
    + rewrite bool_decide_eq_true_2; [done|].
      apply bool_decide_eq_true in Hin. apply elem_of_cons; by right.
    + rewrite bool_decide_eq_false_2; [done|].
      apply bool_decide_eq_false in Hin.
      intros [?|?]%elem_of_cons; congruence.
Qed.

Lemma spread_cons {V} (a b : list (string * V)) (key : string) (v : V) :
  spread a ((key, v) :: b) = spread (entry_set key v a) b.
Proof. done. Qed.

(** [{ ...a, ...b }] holds for each key what [b] holds, or else what
    [a] holds. *)
Lemma spread_get {V} (a b : list (string * V)) (key : string) :
  NoDup (map fst b) →
  entry_get key (spread a b)
  = match entry_get key b with
    | Some v => Some v
    | None => entry_get key a
    end.
Proof.
  revert a. induction b as [|[k v] b IH]; intros a; [done|].
  intros [Hk Hnd]%NoDup_cons. rewrite spread_cons, (IH _ Hnd). simpl.
  destruct (String.eqb_spec k key) as [->|Hne].
  - by rewrite (entry_get_None key b Hk), entry_get_set_same.
  - rewrite entry_get_set_other; [done|congruence].
Qed.

(** The keys of [a] keep their places, the new keys of [b] follow in
    the order of [b]. *)
Lemma spread_keys {V} (a b : list (string * V)) :
  NoDup (map fst b) →
  map fst (spread a b)
  = (map fst a ++ filter (λ key, key ∉ map fst a) (map fst b))%list.
Proof.
  revert a. induction b as [|[k v] b IH]; intros a.
  - intros _. simpl. by rewrite app_nil_r.
  - intros [Hk Hnd]%NoDup_cons. rewrite spread_cons, (IH _ Hnd).
    rewrite entry_set_keys. simpl map. rewrite filter_cons.
    destruct (bool_decide (k ∈ map fst a)) eqn:Hin.
    + apply bool_decide_eq_true in Hin.
      destruct (decide (k ∉ map fst a)); [done|]. done.
    + apply bool_decide_eq_false in Hin.
      destruct (decide (k ∉ map fst a)); [|done].
      rewrite <- app_assoc. simpl. do 2 f_equal.
      apply filter_agree. intros key Hkey.
      rewrite not_elem_of_app, not_elem_of_cons.
      split; [by intros [? _]|].
      intros Hnot. repeat split; [done| |apply not_elem_of_nil].
      intros ->. by apply Hk.
Qed.

Lemma entry_delete_keys {V} (key : string) (o : list (string * V)) :
  key ∉ map fst (entry_delete key o).
Proof.
  induction o as [|[k x] o IH]; simpl; [apply not_elem_of_nil|].
  destruct (String.eqb_spec k key) as [->|Hk]; [done|].
  simpl. apply not_elem_of_cons. split; [congruence|done].
Qed.

Lemma entry_get_delete_other {V} (key other : string) (o : list (string * V)) :
  other ≠ key → entry_get other (entry_delete key o) = entry_get other o.
Proof.
  intros Hne. induction o as [|[k x] o IH]; simpl; [done|].
  destruct (String.eqb_spec k key) as [->|Hk]; simpl.
  - by destruct (String.eqb_spec key other) as [->|_].
  - by rewrite IH.
Qed.

(** ** The methods *)

Lemma createTable_cases (name : string) (schema : TableSchema) (w : GrokDB) :
  (∃ d, createTable name schema w
        = (Ok tt, (set_table name schema (with_db d w)).2))
  ∨ (∃ e d, createTable name schema w = (Throw e, with_db d w)).
Proof.
  unfold createTable, bind.
  destruct (run_with_db (createTableSQL name schema) [] w) as [d Hd].
  destruct (run _ [] w) as [[r|e] w1]; simpl in Hd; subst w1;
    [|right; by exists e, d].
  destruct (run_each_with_db (index_statements name schema) (with_db d w))
    as [d1 Hd1].
  destruct (run_each _ (with_db d w)) as [[[]|e] w1]; simpl in Hd1; subst w1.
  - left. by exists d1.
  - right. by exists e, d1.
Qed.

(** X10.  [createTable] registers the schema under the name once every
    statement has run, replacing a schema registered before; when a
    statement fails the registry is as it was, also when the table
    itself was created and only an index failed.  It never touches
    another table's schema, the validators or the events. *)
Theorem createTable_registers
    (name : string) (schema : TableSchema) (w : GrokDB) :
  let after := (createTable name schema w).2 in
  match (createTable name schema w).1 with
  | Ok _ =>
      ∀ table,
        (getSchema table after).1
        = Ok (if String.eqb table name then Some schema
              else tables w !! table)
  | Throw _ => ∀ table, (getSchema table after).1 = (getSchema table w).1
  end
  ∧ validators after = validators w ∧ emitted after = emitted w.
Proof.
  destruct (createTable_cases name schema w) as [[d ->]|(e & d & ->)];
    simpl; [|done].
  split; [|done]. intros table. unfold getSchema. simpl. f_equal.
  destruct (String.eqb_spec table name) as [->|Hne].
  - by rewrite lookup_insert_eq.
  - by rewrite lookup_insert_ne.
Qed.

(** X11.  [alterTable] registers [{ ...schema, ...newColumns }] once
    every statement has run: a column keeps the definition
    [newColumns] gives it, or else the one it had; the columns the table
    had keep their places and the new ones follow in the order of
    [newColumns].  When a statement fails the registry is as it was,
    whatever columns the engine has added by then. *)
Theorem alterTable_merges
    (table : string) (newColumns schema : TableSchema) (w : GrokDB) :
  tables w !! table = Some schema →
  NoDup (map fst newColumns) →
  let after := (alterTable table newColumns w).2 in
  match (alterTable table newColumns w).1 with
  | Ok _ =>
      ∃ merged,
        tables after = <[table := merged]> (tables w)
        ∧ (∀ column,
             entry_get column merged
             = match entry_get column newColumns with
               | Some config => Some config
               | None => entry_get column schema
               end)
        ∧ map fst merged
          = (map fst schema
             ++ filter (λ column, column ∉ map fst schema)
                  (map fst newColumns))%list
  | Throw _ => tables after = tables w
  end.
Proof.
  intros Hschema Hnd. unfold alterTable, bind, get_table. rewrite Hschema.
  destruct (add_columns_with_db table newColumns w) as [d Hd].
  destruct (add_columns table newColumns w) as [[[]|e] w1]; simpl in Hd;
    subst w1; simpl; [|done].
  exists (spread schema newColumns).
  split; [done|]. split; [intros column; by apply spread_get|].
  by apply spread_keys.
Qed.

Lemma bind_ext {A B} (m m' : M A) (k k' : A → M B) (w : GrokDB) :
  (∀ v, m v = m' v) → (∀ a v, k a v = k' a v) → bind m k w = bind m' k' w.
Proof.
  intros Hm Hk. unfold bind. rewrite Hm.
  destruct (m' w) as [[a|e] w1]; [apply Hk|done].
Qed.

Lemma add_columns_as_added (table : string) (columns : TableSchema) (w : GrokDB) :
  add_columns table (map (λ entry, (entry.1, as_added entry.2)) columns) w
  = add_columns table columns w.
Proof.
  revert w. induction columns as [|[name config] rest IH]; intros w; [done|].
  simpl. apply bind_ext; [done|]. intros _ w1.
  apply bind_ext; [done|]. intros _ w2. apply IH.
Qed.

(** X12.  The statements of [alterTable] read the type, [notNull],
    [default] and [index] of a new column and nothing else: what they
    do to the engine, and whether the call returns, is the same when
    [primary], [unique] and [foreignKey] are taken away from every new
    column, though the registry records them. *)
Theorem alterTable_adds_no_constraint
    (table : string) (newColumns : TableSchema) (w : GrokDB) :
  let plain := map (λ entry, (entry.1, as_added entry.2)) newColumns in
  (alterTable table plain w).1 = (alterTable table newColumns w).1
  ∧ db (alterTable table plain w).2 = db (alterTable table newColumns w).2.
Proof.
  simpl. unfold alterTable, bind, get_table.
  destruct (tables w !! table) as [schema|]; [|done].
  rewrite add_columns_as_added.
  by destruct (add_columns table newColumns w) as [[[]|e] w1].
Qed.

(** X13.  [dropColumn] registers the schema without the column once
    every statement has run, and leaves the same schema registered
    under [<table>_temp], the name the engine no longer knows after the
    renaming; the other columns keep their definitions.  When a
    statement fails the table's schema is as it was, with or without
    the entry for [<table>_temp]. *)
Theorem dropColumn_registers
    (table column : string) (schema : TableSchema) (w : GrokDB) :
  tables w !! table = Some schema →
  let kept := entry_delete column schema in
  let after := (dropColumn table column w).2 in
  match (dropColumn table column w).1 with
  | Ok _ =>
      (getSchema table after).1 = Ok (Some kept)
      ∧ (getSchema (table +:+ "_temp") after).1 = Ok (Some kept)
      ∧ ∀ other,
          other ≠ table → other ≠ (table +:+ "_temp") →
          (getSchema other after).1 = (getSchema other w).1
  | Throw _ =>
      (getSchema table after).1 = Ok (Some schema)
      ∧ (tables after = tables w
         ∨ tables after = <[table +:+ "_temp" := kept]> (tables w))
  end
  ∧ (column ∉ map fst kept)
  ∧ (∀ other, other ≠ column → entry_get other kept = entry_get other schema)
  ∧ emitted after = emitted w.
Proof.
  intros Hschema kept after.
  assert (Hkept : (column ∉ map fst kept)
                  ∧ ∀ other, other ≠ column
                             → entry_get other kept = entry_get other schema).
  { split; [apply entry_delete_keys|].
    intros other Hne. by apply entry_get_delete_other. }
  cut (match (dropColumn table column w).1 with
       | Ok _ =>
           (getSchema table after).1 = Ok (Some kept)
           ∧ (getSchema (table +:+ "_temp") after).1 = Ok (Some kept)
           ∧ ∀ other,
               other ≠ table → other ≠ (table +:+ "_temp") →
               (getSchema other after).1 = (getSchema other w).1
       | Throw _ =>
           (getSchema table after).1 = Ok (Some schema)
           ∧ (tables after = tables w
              ∨ tables after = <[table +:+ "_temp" := kept]> (tables w))
       end ∧ emitted after = emitted w).
  { intros [? ?]. by destruct Hkept. }
  clear Hkept. subst after. unfold dropColumn, bind, get_table.
  rewrite Hschema. fold kept.
  pose proof (append_temp_neq table) as Htemp.
  destruct (createTable_cases (table +:+ "_temp") kept w)
    as [[d ->]|(e & d & ->)];
    [|unfold getSchema; simpl; rewrite Hschema; by eauto].
  set (w1 := (set_table (table +:+ "_temp") kept (with_db d w)).2).
  assert (Hthrow : ∀ d',
            ((getSchema table (with_db d' w1)).1 = Ok (Some schema)
             ∧ (tables (with_db d' w1) = tables w
                ∨ tables (with_db d' w1)
                  = <[table +:+ "_temp" := kept]> (tables w)))
            ∧ emitted (with_db d' w1) = emitted w).
  { intros d'. unfold getSchema. simpl.
    rewrite lookup_insert_ne, Hschema by congruence. by eauto. }
  destruct (run_with_db
              ("INSERT INTO " +:+ (table +:+ "_temp") +:+ " SELECT "
               +:+ join ", " (map fst kept) +:+ " FROM " +:+ table) [] w1)
    as [d1 Hd1].
  destruct (run _ [] w1) as [[r1|e1] w2]; simpl in Hd1; subst w2;
    [|exact (Hthrow d1)].
  destruct (run_with_db ("DROP TABLE " +:+ table) [] (with_db d1 w1))
    as [d2 Hd2].
  destruct (run _ [] (with_db d1 w1)) as [[r2|e2] w2]; simpl in Hd2;
    subst w2; [|exact (Hthrow d2)].
  destruct (run_with_db
              ("ALTER TABLE " +:+ (table +:+ "_temp") +:+ " RENAME TO "
               +:+ table) [] (with_db d2 (with_db d1 w1)))
    as [d3 Hd3].
  destruct (run _ [] (with_db d2 (with_db d1 w1))) as [[r3|e3] w2];
    simpl in Hd3; subst w2; [|exact (Hthrow d3)].
  unfold getSchema. simpl. split; [|done].
  split; [by rewrite lookup_insert_eq|].
  split.
  - rewrite lookup_insert_ne; [|congruence]. by rewrite lookup_insert_eq.
  - intros other Hne1 Hne2. by rewrite !lookup_insert_ne.
Qed.

(** X14.  A validator set for a table is the one [insert] and [update]
    ask from then on, whatever validator the table had: a payload it
    refuses is refused with [ZodError] and nothing else happens.  The
    validators of the other tables stay. *)
Theorem validator_is_enforced
    (table : string) (validator : ZodSchema) (data where_ : Row)
    (schema : TableSchema) (w : GrokDB) :
  tables w !! table = Some schema →
  let after := (setValidator table validator w).2 in
  (parse validator data = false →
   insert table data after = (Throw (ZodError data), after))
  ∧ (partial_parse validator data = false →
     update table data where_ after = (Throw (ZodError data), after))
  ∧ ∀ other, other ≠ table → validators after !! other = validators w !! other.
Proof.
  intros Hschema after. subst after. unfold setValidator. repeat split.
  - intros Hrefuse. unfold insert, bind, get_table, validate. simpl.
    rewrite Hschema. simpl. by rewrite lookup_insert_eq, Hrefuse.
  - intros Hrefuse. unfold update, bind, get_table, validate. simpl.
    rewrite Hschema. simpl. by rewrite lookup_insert_eq, Hrefuse.
  - intros other Hne. simpl. by rewrite lookup_insert_ne.
Qed.

(** X15.  [transaction] publishes nothing and hands out no handle when
    [BEGIN] fails.  [commit] and [rollback] publish their event exactly
    when their statement has run; when they return they have touched
    neither the registry nor the validators.  They raise in one of two
    ways: with the engine's error, and then the state is as it was; or
    with the exception of a listener of their event, and then the
    statement has run and the event is published. *)
Theorem transaction_publishes_after_statement (w : GrokDB) :
  emitted (transaction w).2 = emitted w
  ∧ ∀ tx v,
      (transaction w).1 = Ok tx →
      match (commit tx v).1 with
      | Ok _ =>
          emitted (commit tx v).2
          = (emitted v ++ [("transaction:commit", VUndefined)])%list
          ∧ keeps_settings v (commit tx v).2
      | Throw e =>
          (∃ message,
             e = SqliteError message
             ∧ db_run "COMMIT" [] (db v) = inl message
             ∧ (commit tx v).2 = v)
          ∨ ∃ thrown result,
              e = ListenerError thrown
              ∧ listeners v "transaction:commit" VUndefined = Some thrown
              ∧ db_run "COMMIT" [] (db v) = inr (result, db (commit tx v).2)
              ∧ emitted (commit tx v).2
                = (emitted v ++ [("transaction:commit", VUndefined)])%list
      end
      ∧ match (rollback tx v).1 with
        | Ok _ =>
            emitted (rollback tx v).2
            = (emitted v ++ [("transaction:rollback", VUndefined)])%list
            ∧ keeps_settings v (rollback tx v).2
        | Throw e =>
            (∃ message,
               e = SqliteError message
               ∧ db_run "ROLLBACK" [] (db v) = inl message
               ∧ (rollback tx v).2 = v)
            ∨ ∃ thrown result,
                e = ListenerError thrown
                ∧ listeners v "transaction:rollback" VUndefined = Some thrown
                ∧ db_run "ROLLBACK" [] (db v)
                  = inr (result, db (rollback tx v).2)
                ∧ emitted (rollback tx v).2
                  = (emitted v ++ [("transaction:rollback", VUndefined)])%list
        end.
Proof.
  unfold transaction, bind, run, ret.
  destruct (db_run "BEGIN" [] (db w)) as [message|[r d]]; simpl; [done|].
  split; [done|]. intros tx v [= <-]. simpl. unfold bind, run, emit.
  split.
  - destruct (db_run "COMMIT" [] (db v)) as [message|[result d']];
      simpl; [left; by exists message|].
    destruct (listeners v "transaction:commit" VUndefined) as [thrown|];
      simpl; [|done].
    right. by exists thrown, result.
  - destruct (db_run "ROLLBACK" [] (db v)) as [message|[result d']];
      simpl; [left; by exists message|].
    destruct (listeners v "transaction:rollback" VUndefined) as [thrown|];
      simpl; [|done].
    right. by exists thrown, result.
Qed.

End Registry.

(** X15 at a concrete input: a listener of [transaction:commit]
    throws, and [commit] raises what it throws after [COMMIT] has
    run. *)
Lemma transaction_publishes_after_statement_witness :
  let v := (transaction Examples.heckled).2 in
  ∃ tx,
    (transaction Examples.heckled).1 = Ok tx
    ∧ (commit tx v).1 = Throw (ListenerError (VStr "boom"))
    ∧ emitted (commit tx v).2 = [("transaction:commit", VUndefined)]
    ∧ Reference.mem_journal (db (commit tx v).2)
      = [("BEGIN", []); ("COMMIT", [])].
Proof.
  intros v.
  set (tx := {| commit :=
                  bind (run "COMMIT" [])
                    (λ _, emit "transaction:commit" VUndefined);
                rollback :=
                  bind (run "ROLLBACK" [])
                    (λ _, emit "transaction:rollback" VUndefined) |}
             : @Transaction Reference.database).
  assert (Hbegin : (transaction Examples.heckled).1 = Ok tx)
    by reflexivity.
  assert (Hthrow : (commit tx v).1 = Throw (ListenerError (VStr "boom")))
    by (vm_compute; reflexivity).
  exists tx. split; [exact Hbegin|]. split; [exact Hthrow|].
  destruct (proj2 (transaction_publishes_after_statement Examples.heckled)
              tx v Hbegin) as [Hcommit _].
  rewrite Hthrow in Hcommit.
  destruct Hcommit
    as [(message & Heq & _)|(thrown & result & _ & _ & _ & Hemitted)];
    [discriminate|].
  split; [rewrite Hemitted|]; vm_compute; reflexivity.
Defined.

(** X11 at a concrete input: [body] is redefined in place, [status] is
    appended. *)
Lemma alterTable_merges_witness :
  let newColumns :=
    [("status", Examples.column TEXT); ("body", Examples.json_column)] in
  ∃ merged,
    tables (alterTable "notes" newColumns Examples.world).2
    = <["notes" := merged]> (tables Examples.world)
    ∧ entry_get "body" merged = Some Examples.json_column
    ∧ map fst merged = ["id"; "body"; "status"].
Proof.
  intros newColumns.
  assert (Hok : (alterTable "notes" newColumns Examples.world).1 = Ok tt)
    by (vm_compute; reflexivity).
  assert (Hnd : NoDup (map fst newColumns))
    by (apply (bool_decide_unpack _); vm_compute; exact I).
  pose proof (alterTable_merges "notes" newColumns Examples.notes
                Examples.world ltac:(vm_compute; reflexivity) Hnd) as Hm.
  cbv zeta in Hm. rewrite Hok in Hm.
  destruct Hm as (merged & Htables & Hget & Hkeys).
  exists merged. split; [exact Htables|]. split.
  - rewrite Hget. reflexivity.
  - rewrite Hkeys. vm_compute. reflexivity.
Defined.

(** X13 at a concrete input: the registry keeps [notes_temp]. *)
Lemma dropColumn_registers_witness :
  let after := (dropColumn "notes" "body" Examples.world).2 in
  (getSchema "notes" after).1 = Ok (Some [("id", Examples.id_column)])
  ∧ (getSchema "notes_temp" after).1 = Ok (Some [("id", Examples.id_column)]).
Proof.
  intros after.
  assert (Hok : (dropColumn "notes" "body" Examples.world).1 = Ok tt)
    by (vm_compute; reflexivity).
  pose proof (dropColumn_registers "notes" "body" Examples.notes
                Examples.world ltac:(vm_compute; reflexivity)) as Hd.
  cbv zeta in Hd. rewrite Hok in Hd.
  destruct Hd as ((Htable & Htemp & _) & _).
  split; [exact Htable|exact Htemp].
Defined.

(** X14 at a concrete input: [notes] had no validator. *)
Lemma validator_is_enforced_witness :
  let after := (setValidator "notes" Examples.user_validator Examples.world).2 in
  insert "notes" [("body", VStr "text")] Examples.world
  = (Ok {| changes := 1; lastInsertRowid := 1 |},
     (insert "notes" [("body", VStr "text")] Examples.world).2)
  ∧ insert "notes" [("body", VStr "text")] after
    = (Throw (ZodError [("body", VStr "text")]), after).
Proof.
  intros after. split; [vm_compute; reflexivity|].
  destruct (validator_is_enforced "notes" Examples.user_validator
              [("body", VStr "text")] [] Examples.notes Examples.world
              ltac:(vm_compute; reflexivity)) as [Hinsert _].
  apply Hinsert. reflexivity.
Defined.

(** * A new instance *)

Section Opening.

Context `{CryptoJS} `{Driver}.

(** X18.  A new instance knows no table, whatever the database file
    holds: until [createTable] is called, [insert], [find] and
    [getSchema] find no schema.  It has no validator and no listener and
    has published nothing; its key is the option as given and its
    migrations path is never empty (a path left out or empty is
    [./migrations]). *)
Theorem new_instance_knows_no_table
    (dirs : Directories) (path : string) (options : Options) (w : GrokDB) :
  constructor dirs path options = Ok w →
  (∀ table data,
     insert table data w
     = (Throw (Error ("Table " +:+ table +:+ " does not exist")), w))
  ∧ (∀ table where_ query,
       find table where_ query w
       = (Throw (Error ("Table " +:+ table +:+ " does not exist")), w))
  ∧ (∀ table, getSchema table w = (Ok None, w))
  ∧ validators w = ∅ ∧ emitted w = []
  ∧ (∀ topic payload, listeners w topic payload = None)
  ∧ encryptionKey w = o_encryptionKey options
  ∧ truthy_string (migrationPath w) = true.
Proof.
  unfold constructor.
  destruct (db_open _ _ _ _) as [?|opened]; [done|].
  destruct (db_pragma _ opened) as [?|keyed]; [done|].
  destruct (db_pragma _ keyed) as [?|ready]; [done|].
  set (migrations := or_else truthy_string (o_migrationPath options) _).
  assert (Hpath : truthy_string migrations = true).
  { unfold migrations, or_else. destruct (o_migrationPath options) as [p|];
      [|done]. by destruct (truthy_string p) eqn:Hp. }
  intros Hnew.
  assert (Hw : w = {| db := ready; tables := ∅; validators := ∅;
                      encryptionKey := o_encryptionKey options;
                      migrationPath := migrations;
                      listeners := λ _ _, None; emitted := [] |}).
  { destruct (dir_exists dirs migrations); [by injection Hnew|].
    destruct (mkdirSync dirs migrations); [done|by injection Hnew]. }
  clear Hnew. subst w.
  unfold insert, find, getSchema, bind, get_table. simpl.
  repeat split; try done; intros; by rewrite ?lookup_empty.
Qed.

End Opening.

(** X18 at a concrete input: an empty migrations path, on a disk without
    directories. *)
Lemma new_instance_knows_no_table_witness :
  let options :=
    {| o_encryptionKey := None; o_timeout := None; o_readonly := None;
       o_fileMustExist := None; o_migrationPath := Some "" |} in
  ∃ w : @GrokDB Reference.database,
    @constructor Reference.database Reference.driver Reference.bare
      "database.sqlite" options
    = Ok w
    ∧ insert "users" Examples.new_user w
      = (Throw (Error "Table users does not exist"), w)
    ∧ migrationPath w = "./migrations".
Proof.
  intros options.
  destruct (@constructor Reference.database Reference.driver Reference.bare
              "database.sqlite" options)
    as [w|e] eqn:Hnew; [|exfalso; vm_compute in Hnew; discriminate].
  destruct (@new_instance_knows_no_table reference_cipher Reference.database
              Reference.driver Reference.bare "database.sqlite"
              options w Hnew) as (Hinsert & _).
  exists w. split; [done|]. split; [apply Hinsert|].
  vm_compute in Hnew. injection Hnew as <-. reflexivity.
Defined.

(** * Soft deletion and the validator *)

Section SoftDelete.

Context `{CryptoJS} `{Database}.

(** X19.  A soft delete is validated as the update it is: when the
    validator of the table refuses the partial payload
    [{ <column>: now }], [delete] raises [ZodError] with that payload,
    and no row is marked or removed and no event published. *)
Theorem soft_delete_is_validated
    (now table column : string) (where_ : Row) (schema : TableSchema)
    (validator : ZodSchema) (w : GrokDB) :
  tables w !! table = Some schema →
  softDeleteColumn schema = Some column →
  truthy_string column = true →
  validators w !! table = Some validator →
  partial_parse validator [(column, VStr now)] = false →
  delete now table where_ w = (Throw (ZodError [(column, VStr now)]), w).
Proof.
  intros Hschema Hsoft Htruthy Hvalidator Hrefuse.
  unfold delete, bind, get_table. rewrite Hschema, Hsoft, Htruthy.
  unfold update, bind, get_table, validate.
  by rewrite Hschema, Hvalidator, Hrefuse.
Qed.

End SoftDelete.

(** X19 at a concrete input: a strict validator on [users]. *)
Lemma soft_delete_is_validated_witness :
  let w := (setValidator "users" Examples.strict_validator Examples.world).2 in
  delete Examples.now "users" [("id", VNum 1)] w
  = (Throw (ZodError [("deleted_at", VStr Examples.now)]), w).
Proof.
  intros w.
  apply (soft_delete_is_validated Examples.now "users" "deleted_at"
           [("id", VNum 1)] Examples.users Examples.strict_validator w);
    vm_compute; reflexivity.
Defined.

(** * Reading one row *)

Section FindOne.

Context `{CryptoJS} `{Database}.

Lemma find_query_limit_1
    (table : string) (schema : TableSchema) (where_ : Row)
    (options : QueryOptions) :
  find_query table schema where_
    {| limit := Some 1%Z; offset := offset options;
       includeDeleted := includeDeleted options; orderBy := orderBy options |}
  = ((find_query table schema where_
        {| limit := None; offset := None;
           includeDeleted := includeDeleted options;
           orderBy := orderBy options |}).1
     +:+ " LIMIT 1"
     +:+ match offset options with
         | Some o =>
             if truthy_number o then " OFFSET " +:+ JSON.number_to_string o
             else ""
         | None => ""
         end,
     obj_values where_).
Proof.
  unfold find_query. simpl. f_equal.
  change (" LIMIT " +:+ JSON.number_to_string 1) with " LIMIT 1".
  destruct (offset options) as [o|]; [destruct (truthy_number o)|];
    by rewrite ?append_assoc, ?append_nil_r.
Qed.

(** X20.  [findOne] asks the engine for one row whatever limit the
    caller gives, and honours the caller's offset: its statement is the
    one [find] prepares without limit and offset, followed by
    [LIMIT 1] and by [OFFSET <offset>] for an offset other than 0.  It
    changes nothing; it returns [null] when the engine answers no row,
    and otherwise the first row of the answer, decoded. *)
Theorem findOne_asks_for_one_row
    (table : string) (where_ : Row) (options : QueryOptions)
    (schema : TableSchema) (rows : list Row) (w : GrokDB) :
  tables w !! table = Some schema →
  db_all
    ((find_query table schema where_
        {| limit := None; offset := None;
           includeDeleted := includeDeleted options;
           orderBy := orderBy options |}).1
     +:+ " LIMIT 1"
     +:+ match offset options with
         | Some o =>
             if truthy_number o then " OFFSET " +:+ JSON.number_to_string o
             else ""
         | None => ""
         end)
    (obj_values where_) (db w) = inr rows →
  (findOne table where_ options w).2 = w
  ∧ (rows = [] → (findOne table where_ options w).1 = Ok None)
  ∧ ∀ row rest found,
      rows = row :: rest →
      (findOne table where_ options w).1 = Ok found →
      ∃ first,
        found = Some first
        ∧ code_row (unprocessValue (encryptionKey w)) schema row = Ok first.
Proof.
  intros Hschema Hall. unfold findOne, find, bind, get_table, all, ret.
  rewrite Hschema, find_query_limit_1, Hall. simpl.
  split; [by destruct (unprocess_rows _ schema rows)|].
  split; [by intros ->|].
  intros row rest found ->. simpl.
  destruct (code_row _ schema row) as [first|e]; [|done].
  destruct (unprocess_rows _ schema rest); [|done].
  simpl. intros [= <-]. by exists first.
Qed.

End FindOne.

(** X20 at a concrete input: a limit of 50 and an offset of 2. *)
Lemma findOne_asks_for_one_row_witness :
  let w := Examples.loaded [Examples.stored_user; Examples.damaged_user] in
  let options :=
    {| limit := Some 50%Z; offset := Some 2%Z; includeDeleted := false;
       orderBy := None |} in
  db_all "SELECT * FROM users WHERE deleted_at IS NULL AND email = ? LIMIT 1 OFFSET 2"
    [VStr "a@b.com"] (db w)
  = inr [Examples.stored_user; Examples.damaged_user]
  ∧ (findOne "users" [("email", VStr "a@b.com")] options w).2 = w.
Proof.
  intros w options. split; [vm_compute; reflexivity|].
  apply (findOne_asks_for_one_row "users" [("email", VStr "a@b.com")] options
           Examples.users [Examples.stored_user; Examples.damaged_user] w);
    vm_compute; reflexivity.
Defined.
